(** * DarkHelp sample tool: the replaceable single-slot channel, the class-name
    loader and the result printers, embedded from the C++ source and checked
    against the written specification. *)

From Stdlib Require Import ZArith String Ascii DecimalString.
From stdpp Require Import list sets.

(** ** The slot channel [send_one_replaceable_object_t<T>]

    The object has two members, [const bool sync] and [std::atomic<T*> a_ptr].
    The cells that [a_ptr] and the local pointers of [send] and [receive]
    point to live on the process heap, which is modelled explicitly: [new]
    appends a cell, [delete] kills it, and reading or deleting a dead cell is
    undefined behaviour, reported as [None]. *)

Module Slot.

Inductive tid := Producer | Consumer.

#[global] Instance tid_eq_dec : EqDecision tid.
Proof. solve_decision. Defined.

(** A location is an index into the heap; a heap cell is [Some v] while
    allocated and [None] once deleted. *)
Abbreviation loc := nat (only parsing).
Abbreviation heap T := (list (option T)) (only parsing).

Section slot.
Context {T : Type}.

(** [new T] followed by [*new_ptr = _obj]. *)
Definition alloc (h : heap T) (v : T) : loc * heap T := (length h, h ++ [Some v]).

(** [*ptr] *)
Definition deref (h : heap T) (l : loc) : option T :=
  match h !! l with
  | Some (Some v) => Some v
  | _ => None
  end.

(** [delete ptr] for a non-null pointer. *)
Definition free (h : heap T) (l : loc) : option (heap T) :=
  match deref h l with
  | Some _ => Some (<[l:=None]> h)
  | None => None
  end.

Record send_one_replaceable_object_t := Chan {
  sync : bool;
  a_ptr : option loc
}.

Abbreviation chan := send_one_replaceable_object_t (only parsing).

(** The constructor: [sync(_sync), a_ptr(NULL)]. *)
Definition construct (_sync : bool) : chan := Chan _sync None.

(** [a_ptr.load()] and [a_ptr.exchange(p)]. *)
Definition load (c : chan) : option loc := a_ptr c.
Definition exchange (c : chan) (p : option loc) : option loc * chan :=
  (a_ptr c, Chan (sync c) p).

(** [is_object_present]: [return (a_ptr.load() != NULL);] *)
Definition is_object_present (c : chan) : bool :=
  match load c with
  | Some _ => true
  | None => false
  end.

(** The calls a thread makes on the channel. *)
Inductive op :=
| Send (v : T)
| Receive
| IsPresent.

(** What can be observed of a run. [EvSend] and [EvRecv] mark the return of
    [send] and [receive]; [EvDrop] is the destructor of [old_ptr] deleting a
    value that was still pending; [EvSleep] is one polling interval. *)
Inductive event :=
| EvSend (t : tid) (v : T)
| EvDrop (t : tid) (v : T)
| EvRecv (t : tid) (v : T)
| EvPresent (t : tid) (b : bool)
| EvSleep (t : tid).

(** Program points between two accesses to shared state.
    [Idle]: outside any call.
    [SendWait]: in [send], at [while (a_ptr.load())] of the synchronous branch.
    [SendXchg]: in [send], at [a_ptr.exchange(new_ptr)].
    [RecvPoll]: in [receive], at [while (!a_ptr.load())].
    [RecvXchg]: in [receive], at [ptr.reset(a_ptr.exchange(NULL))].
    [RecvCopy]: in [receive], past the loop with [ptr] not null, at
    [T obj = *ptr]. *)
Inductive point :=
| Idle
| SendWait (_obj : T) (new_ptr : loc)
| SendXchg (_obj : T) (new_ptr : loc)
| RecvPoll
| RecvXchg
| RecvCopy (ptr : loc).

Record thread := Thread { todo : list op; pc : point }.

(** One atomic step of a thread: the code up to and including its next access
    to [a_ptr].  Entering [send] allocates and fills the new cell; the
    exchange of [send] ends with the destructor of [old_ptr], which deletes
    the cell that was pending, if any; [receive] returns a copy of the cell it
    took and its [ptr] deletes the cell.  A thread with nothing left to do
    stutters. *)
Definition step_thread (t : tid) (c : chan) (h : heap T) (th : thread)
  : option (chan * heap T * thread * list event) :=
  match pc th with
  | Idle =>
      match todo th with
      | [] => Some (c, h, th, [])
      | Send v :: rest =>
          let '(new_ptr, h') := alloc h v in
          Some (c, h',
                Thread rest (if sync c then SendWait v new_ptr
                             else SendXchg v new_ptr), [])
      | Receive :: rest => Some (c, h, Thread rest RecvPoll, [])
      | IsPresent :: rest =>
          Some (c, h, Thread rest Idle, [EvPresent t (is_object_present c)])
      end
  | SendWait v new_ptr =>
      match load c with
      | Some _ => Some (c, h, th, [EvSleep t])
      | None => Some (c, h, Thread (todo th) (SendXchg v new_ptr), [])
      end
  | SendXchg v new_ptr =>
      let '(old_ptr, c') := exchange c (Some new_ptr) in
      match old_ptr with
      | None => Some (c', h, Thread (todo th) Idle, [EvSend t v])
      | Some o =>
          match deref h o, free h o with
          | Some w, Some h' =>
              Some (c', h', Thread (todo th) Idle, [EvDrop t w; EvSend t v])
          | _, _ => None
          end
      end
  | RecvPoll =>
      match load c with
      | None => Some (c, h, th, [EvSleep t])
      | Some _ => Some (c, h, Thread (todo th) RecvXchg, [])
      end
  | RecvXchg =>
      let '(ptr, c') := exchange c None in
      match ptr with
      | None => Some (c', h, Thread (todo th) RecvPoll, [])
      | Some p => Some (c', h, Thread (todo th) (RecvCopy p), [])
      end
  | RecvCopy ptr =>
      match deref h ptr, free h ptr with
      | Some obj, Some h' => Some (c, h', Thread (todo th) Idle, [EvRecv t obj])
      | _, _ => None
      end
  end.

(** The whole system: the channel, the heap, the two threads that share the
    channel, and the events so far, oldest first. *)
Record sys := Sys {
  ch : chan;
  mem : heap T;
  producer : thread;
  consumer : thread;
  trace : list event
}.

Definition init (_sync : bool) (p c : list op) : sys :=
  Sys (construct _sync) [] (Thread p Idle) (Thread c Idle) [].

Definition step (t : tid) (s : sys) : option sys :=
  match t with
  | Producer =>
      match step_thread Producer (ch s) (mem s) (producer s) with
      | Some (c', h', th', evs) =>
          Some (Sys c' h' th' (consumer s) (trace s ++ evs))
      | None => None
      end
  | Consumer =>
      match step_thread Consumer (ch s) (mem s) (consumer s) with
      | Some (c', h', th', evs) =>
          Some (Sys c' h' (producer s) th' (trace s ++ evs))
      | None => None
      end
  end.

(** A schedule names the thread that moves at each step. *)
Fixpoint run (sch : list tid) (s : sys) : option sys :=
  match sch with
  | [] => Some s
  | t :: sch' =>
      match step t s with
      | Some s' => run sch' s'
      | None => None
      end
  end.

Definition reachable (s : sys) : Prop :=
  exists b p c sch, run sch (init b p c) = Some s.

(** Observations. *)
Definition pending (s : sys) : option T :=
  match a_ptr (ch s) with
  | Some l => deref (mem s) l
  | None => None
  end.

Definition in_hand (h : heap T) (th : thread) : list T :=
  match pc th with
  | RecvCopy l => option_list (deref h l)
  | _ => []
  end.

Definition in_flight (s : sys) : list T :=
  in_hand (mem s) (producer s) ++ in_hand (mem s) (consumer s)
  ++ option_list (pending s).

Definition finished (th : thread) : Prop := pc th = Idle /\ todo th = [].

Fixpoint sends (tr : list event) : list T :=
  match tr with
  | [] => []
  | EvSend _ v :: tr' => v :: sends tr'
  | _ :: tr' => sends tr'
  end.

Fixpoint drops (tr : list event) : list T :=
  match tr with
  | [] => []
  | EvDrop _ v :: tr' => v :: drops tr'
  | _ :: tr' => drops tr'
  end.

Fixpoint recvs (tr : list event) : list T :=
  match tr with
  | [] => []
  | EvRecv _ v :: tr' => v :: recvs tr'
  | _ :: tr' => recvs tr'
  end.

Definition send_values (p : list op) : list T :=
  flat_map (fun o => match o with Send v => [v] | _ => [] end) p.

(** The values a thread has been asked to send and has not inserted yet. *)
Definition unsent (th : thread) : list T :=
  match pc th with
  | SendWait v _ | SendXchg v _ => v :: send_values (todo th)
  | _ => send_values (todo th)
  end.

Definition is_send (o : op) : bool :=
  match o with Send _ => true | _ => false end.
Definition is_receive (o : op) : bool :=
  match o with Receive => true | _ => false end.

(** The discipline the channel is written for: one thread only sends, the
    other only receives; both may ask [is_object_present]. *)
Definition no_receive (p : list op) : bool :=
  forallb (fun o => negb (is_receive o)) p.
Definition no_send (p : list op) : bool :=
  forallb (fun o => negb (is_send o)) p.

Definition spsc (p c : list op) : Prop :=
  no_receive p = true /\ no_send c = true.

(** The cell a thread holds in a local pointer ([new_ptr] or [ptr]). *)
Definition th_locs (th : thread) : list loc :=
  match pc th with
  | SendWait _ l | SendXchg _ l | RecvCopy l => [l]
  | _ => []
  end.

Definition live_locs (h : heap T) : list loc :=
  filter (fun l => is_Some (deref h l)) (seq 0 (length h)).

(** The unread values: the live cells that no thread holds. *)
Definition unread (s : sys) : list loc :=
  filter (fun l => l ∉ th_locs (producer s) ++ th_locs (consumer s))
         (live_locs (mem s)).

(** *** Value-level view of the machine

    The same steps with every pointer replaced by the value of the cell it
    points to.  It is a proof device: the theorems are about [run], and
    [sim_run] carries facts from this view back to the heap machine. *)

Inductive apoint :=
| AIdle
| ASendWait (v : T)
| ASendXchg (v : T)
| ARecvPoll
| ARecvXchg
| ARecvCopy (v : T).

Record athread := AThread { atodo : list op; apc : apoint }.

Definition astep_thread (t : tid) (b : bool) (slot : option T) (th : athread)
  : option T * athread * list event :=
  match apc th with
  | AIdle =>
      match atodo th with
      | [] => (slot, th, [])
      | Send v :: rest =>
          (slot, AThread rest (if b then ASendWait v else ASendXchg v), [])
      | Receive :: rest => (slot, AThread rest ARecvPoll, [])
      | IsPresent :: rest =>
          (slot, AThread rest AIdle,
           [EvPresent t (match slot with Some _ => true | None => false end)])
      end
  | ASendWait v =>
      match slot with
      | Some _ => (slot, th, [EvSleep t])
      | None => (slot, AThread (atodo th) (ASendXchg v), [])
      end
  | ASendXchg v =>
      match slot with
      | None => (Some v, AThread (atodo th) AIdle, [EvSend t v])
      | Some w => (Some v, AThread (atodo th) AIdle, [EvDrop t w; EvSend t v])
      end
  | ARecvPoll =>
      match slot with
      | None => (slot, th, [EvSleep t])
      | Some _ => (slot, AThread (atodo th) ARecvXchg, [])
      end
  | ARecvXchg =>
      match slot with
      | None => (None, AThread (atodo th) ARecvPoll, [])
      | Some v => (None, AThread (atodo th) (ARecvCopy v), [])
      end
  | ARecvCopy v => (slot, AThread (atodo th) AIdle, [EvRecv t v])
  end.

Record asys := ASys {
  async : bool;
  aslot : option T;
  aprod : athread;
  acons : athread;
  atrace : list event
}.

Definition ainit (b : bool) (p c : list op) : asys :=
  ASys b None (AThread p AIdle) (AThread c AIdle) [].

Definition astep (t : tid) (a : asys) : asys :=
  match t with
  | Producer =>
      let '(sl, th, evs) := astep_thread Producer (async a) (aslot a) (aprod a) in
      ASys (async a) sl th (acons a) (atrace a ++ evs)
  | Consumer =>
      let '(sl, th, evs) := astep_thread Consumer (async a) (aslot a) (acons a) in
      ASys (async a) sl (aprod a) th (atrace a ++ evs)
  end.

Fixpoint arun (sch : list tid) (a : asys) : asys :=
  match sch with
  | [] => a
  | t :: sch' => arun sch' (astep t a)
  end.

(** How a heap state and a value-level state correspond. *)
Definition slot_rel (h : heap T) (p : option loc) (v : option T) : Prop :=
  match p, v with
  | None, None => True
  | Some l, Some w => h !! l = Some (Some w)
  | _, _ => False
  end.

Definition pt_rel (h : heap T) (p : point) (q : apoint) : Prop :=
  match p, q with
  | Idle, AIdle | RecvPoll, ARecvPoll | RecvXchg, ARecvXchg => True
  | SendWait v l, ASendWait w | SendXchg v l, ASendXchg w =>
      v = w /\ h !! l = Some (Some v)
  | RecvCopy l, ARecvCopy w => h !! l = Some (Some w)
  | _, _ => False
  end.

Definition th_rel (h : heap T) (th : thread) (ath : athread) : Prop :=
  todo th = atodo ath /\ pt_rel h (pc th) (apc ath).

(** Every pointer in use points to its own live cell, and every live cell is
    in use: no dangling pointer, no aliasing, no leak. *)
Definition owned (s : sys) : list loc :=
  option_list (a_ptr (ch s)) ++ th_locs (producer s) ++ th_locs (consumer s).

Definition wf (s : sys) : Prop :=
  NoDup (owned s) /\ forall l, l ∈ owned s <-> is_Some (deref (mem s) l).

Definition sim (s : sys) (a : asys) : Prop :=
  sync (ch s) = async a /\ trace s = atrace a /\
  slot_rel (mem s) (a_ptr (ch s)) (aslot a) /\
  th_rel (mem s) (producer s) (aprod a) /\
  th_rel (mem s) (consumer s) (acons a).

(** Observations of the value-level view. *)
Definition ain_hand (ath : athread) : list T :=
  match apc ath with
  | ARecvCopy v => [v]
  | _ => []
  end.

Definition aunsent (ath : athread) : list T :=
  match apc ath with
  | ASendWait v | ASendXchg v => v :: send_values (atodo ath)
  | _ => send_values (atodo ath)
  end.

Definition afinished (ath : athread) : Prop :=
  apc ath = AIdle /\ atodo ath = [].

Definition prod_pt (q : apoint) : bool :=
  match q with
  | AIdle | ASendWait _ | ASendXchg _ => true
  | _ => false
  end.

Definition cons_pt (q : apoint) : bool :=
  match q with
  | AIdle | ARecvPoll | ARecvXchg | ARecvCopy _ => true
  | _ => false
  end.

(** What holds of every state of a run under the one-producer one-consumer
    discipline, in either mode. *)
Definition spsc_inv (a : asys) : Prop :=
  prod_pt (apc (aprod a)) = true /\ no_receive (atodo (aprod a)) = true /\
  cons_pt (apc (acons a)) = true /\ no_send (atodo (acons a)) = true /\
  (apc (acons a) = ARecvXchg -> aslot a <> None).

(** And in synchronous mode, for a producer asked to send [vs]. *)
Definition sync_inv (vs : list T) (a : asys) : Prop :=
  async a = true /\ spsc_inv a /\
  drops (atrace a) = [] /\
  (forall v, apc (aprod a) = ASendXchg v -> aslot a = None) /\
  sends (atrace a)
    = recvs (atrace a) ++ ain_hand (acons a) ++ option_list (aslot a) /\
  sends (atrace a) ++ aunsent (aprod a) = vs.

(** A schedule that hands [n] values over one at a time: the producer runs a
    whole [send], then the consumer a whole [receive]. *)
Definition handoff_schedule (n : nat) : list tid :=
  concat (replicate n [Producer; Producer; Producer;
                       Consumer; Consumer; Consumer; Consumer]).

Definition handoff_trace (vs : list T) : list event :=
  flat_map (fun v => [EvSend Producer v; EvRecv Consumer v]) vs.

(** The thread a schedule entry names. *)
Definition thr (t : tid) (s : sys) : thread :=
  match t with
  | Producer => producer s
  | Consumer => consumer s
  end.

Definition athr (t : tid) (a : asys) : athread :=
  match t with
  | Producer => aprod a
  | Consumer => acons a
  end.

(** Every value inserted is accounted for exactly once, whatever the two
    threads do: it was returned by a [receive], deleted by a later [send], is
    held by a [receive] about to return, or is pending in the slot. *)
Definition account_inv (a : asys) : Prop :=
  sends (atrace a) ≡ₚ
    recvs (atrace a) ++ drops (atrace a) ++ ain_hand (aprod a)
    ++ ain_hand (acons a) ++ option_list (aslot a).

(** How often a thread is scheduled. *)
Definition count_steps (t : tid) (sch : list tid) : nat :=
  length (filter (fun u => u = t) sch).

(** The stages of one [send v] by the producer meeting a [receive] by the
    consumer on an empty slot, in the value-level view.  [tr0] is the record
    before the two calls and [rest] what the consumer does afterwards.
    [before_insert]: the value is not in the slot yet and the consumer has
    only slept.  [after_insert k]: the send has returned and the consumer
    needs [k] more steps of its own to return [v]. *)
Definition before_insert (v : T) (rest : list op) (tr0 : list event)
    (a : asys) : Prop :=
  aslot a = None /\
  (exists n, atrace a = tr0 ++ replicate n (EvSleep Consumer)) /\
  (aprod a = AThread [Send v] AIdle \/ aprod a = AThread [] (ASendWait v) \/
   aprod a = AThread [] (ASendXchg v)) /\
  (acons a = AThread (Receive :: rest) AIdle \/ acons a = AThread rest ARecvPoll).

Definition after_insert (v : T) (rest : list op) (tr0 : list event)
    (k : nat) (a : asys) : Prop :=
  aprod a = AThread [] AIdle /\
  exists n,
    match k with
    | 0 => exists tr3,
        atrace a = tr0 ++ replicate n (EvSleep Consumer)
                   ++ [EvSend Producer v; EvRecv Consumer v] ++ tr3
    | S j =>
        atrace a = tr0 ++ replicate n (EvSleep Consumer) ++ [EvSend Producer v] /\
        match j with
        | 0 => aslot a = None /\ acons a = AThread rest (ARecvCopy v)
        | 1 => aslot a = Some v /\ acons a = AThread rest ARecvXchg
        | 2 => aslot a = Some v /\ acons a = AThread rest ARecvPoll
        | _ => aslot a = Some v /\ acons a = AThread (Receive :: rest) AIdle
        end
    end.

(** What holds in synchronous mode as soon as the second thread never sends,
    whatever else the two threads do: nothing is deleted, and the sender is
    at its exchange only while the slot is empty. *)
Definition single_sender_inv (a : asys) : Prop :=
  async a = true /\
  no_send (atodo (acons a)) = true /\ cons_pt (apc (acons a)) = true /\
  drops (atrace a) = [] /\
  (forall v, apc (aprod a) = ASendXchg v -> aslot a = None).

End slot.
End Slot.

(** ** The class-name loader [objects_names_from_file] *)

Module Names.
Local Open Scope string_scope.

Definition newline : ascii := "010"%char.

(** The part of [std::ifstream] the function uses: whether the file was
    opened, the characters not yet read, and two state flags. *)
Record ifstream := Stream {
  is_open : bool;
  buf : string;
  eofbit : bool;
  failbit : bool
}.

(** [std::ifstream file(filename);] over a file system that maps a name to
    the contents of the file, or to [None] when it cannot be opened. *)
Definition open_file (fs : string -> option string) (filename : string)
  : ifstream :=
  match fs filename with
  | Some content => Stream true content false false
  | None => Stream false "" false true
  end.

(** The extraction of [std::getline]: characters up to the delimiter, which
    is consumed and not stored, or up to the end of the input, which sets
    [eofbit].  Yields the line, the rest and whether the end was hit. *)
Fixpoint extract (s : string) : string * string * bool :=
  match s with
  | "" => ("", "", true)
  | String c r =>
      if Ascii.eqb c newline then ("", r, false)
      else let '(line, r', e) := extract r in (String c line, r', e)
  end.

(** [getline(file, line)]: on a stream that is not good it sets [failbit] and
    leaves [line] alone; otherwise it erases [line], extracts, and sets
    [failbit] when no character at all was extracted. *)
Definition getline (file : ifstream) (line : string) : ifstream * string :=
  if eofbit file || failbit file then
    (Stream (is_open file) (buf file) (eofbit file) true, line)
  else
    let '(l, r, e) := extract (buf file) in
    (Stream (is_open file) r e
            (match buf file with "" => true | _ => false end), l).

(** [for (std::string line; getline(file, line);) file_lines.push_back(line);]
    with a bound on the number of iterations; [None] when the bound is hit. *)
Fixpoint read_lines (fuel : nat) (file : ifstream) (line : string)
    (file_lines : list string) : option (list string) :=
  match fuel with
  | 0 => None
  | S fuel' =>
      let '(file', line') := getline file line in
      if failbit file' then Some file_lines
      else read_lines fuel' file' line' (file_lines ++ [line'])%list
  end.

Definition loaded_message : string :=
  "object names loaded " ++ String newline "".

(** The vector returned and the text written to [std::cout]. *)
Definition objects_names_from_file (fs : string -> option string)
    (filename : string) : option (list string * string) :=
  let file := open_file fs filename in
  if negb (is_open file) then Some ([], "")
  else
    match read_lines (S (String.length (buf file))) file "" [] with
    | Some file_lines => Some (file_lines, loaded_message)
    | None => None
    end.

(** A file seen as lines: each line, free of newlines, is followed by one. *)
Definition no_newline (l : string) : Prop :=
  forallb (fun c => negb (Ascii.eqb c newline)) (list_ascii_of_string l) = true.

(** The entry for what follows the last newline, when there is anything. *)
Definition last_entry (last : string) : list string :=
  match last with
  | "" => []
  | _ => [last]
  end.

Fixpoint terminated (ls : list string) : string :=
  match ls with
  | [] => ""
  | l :: ls' => l ++ String newline (terminated ls')
  end.

End Names.

(** ** The printers [show_console_result] and [draw_boxes] *)

Module Console.
Local Open Scope Z_scope.
Local Open Scope string_scope.

(** [unsigned int] and [int] are 32 bits wide.  [u32] is the value of an
    unsigned expression, [i32] the value of a conversion to [int]; signed
    arithmetic is taken to wrap the same way. *)
Definition u32 (z : Z) : Z := z mod 2 ^ 32.
Definition i32 (z : Z) : Z := (z + 2 ^ 31) mod 2 ^ 32 - 2 ^ 31.

(** [operator<<] and [std::to_string] on an unsigned value. *)
Definition show_uint (n : N) : string := NilZero.string_of_uint (N.to_uint n).
Definition show_int (z : Z) : string := NilZero.string_of_int (Z.to_int z).

Definition endl : string := String "010"%char "".

(** [cv::Scalar] *)
Definition color : Type := Z * Z * Z.

(** What the drawing calls of OpenCV leave on the image, in order. *)
Inductive cmd :=
| Rectangle (rx ry rw rh : Z) (c : color) (thickness : Z)
| FilledRectangle (x1 y1 x2 y2 : Z) (c : color)
| PutText (text : string) (px py : Z) (scale10 : Z) (c : color) (thickness : Z).

Section console.

(** [float] values are only tested for NaN and printed. *)
Variable F : Type.
Variable isnan : F -> bool.
(** [operator<<] on a float under [std::setprecision(3)], and under
    [std::fixed << std::setprecision(2)]. *)
Variable show_prec3 : F -> string.
Variable show_fixed2 : F -> string.
(** [obj_id_to_color], declared in [yolo_v2_class.hpp]. *)
Variable obj_id_to_color : Z -> color.
(** The width [getTextSize(text, FONT_HERSHEY_COMPLEX_SMALL, scale, thickness,
    0)] reports; the scale is given in tenths. *)
Variable text_width : string -> Z -> Z -> Z.

(** [bbox_t] is declared in [yolo_v2_class.hpp], which is not among the
    sources; these are its fields, of type [unsigned int] and [float]. *)
Record bbox_t := Bbox {
  x : N; y : N; w : N; h : N;
  prob : F;
  obj_id : N;
  track_id : N;
  frames_counter : N;
  x_3d : F; y_3d : F; z_3d : F
}.

(** [obj_names[i.obj_id]]: reading past the end of the vector is undefined
    behaviour, reported as [None]. *)
Definition index (obj_names : list string) (id : N) : option string :=
  obj_names !! N.to_nat id.

(** [obj_names.size() > i.obj_id] *)
Definition in_range (obj_names : list string) (i : bbox_t) : bool :=
  (obj_id i <? N.of_nat (length obj_names))%N.

(** The part of a console line that does not depend on the names. *)
Definition details (i : bbox_t) : string :=
  "obj_id = " ++ show_uint (obj_id i) ++ ",  x = " ++ show_uint (x i)
  ++ ", y = " ++ show_uint (y i) ++ ", w = " ++ show_uint (w i)
  ++ ", h = " ++ show_uint (h i) ++ ", prob = " ++ show_prec3 (prob i) ++ endl.

Definition console_line (obj_names : list string) (i : bbox_t)
  : option string :=
  if in_range obj_names i then
    match index obj_names (obj_id i) with
    | Some name => Some (name ++ " - " ++ details i)
    | None => None
    end
  else Some (details i).

Fixpoint console_lines (result_vec : list bbox_t) (obj_names : list string)
  : option string :=
  match result_vec with
  | [] => Some ""
  | i :: rest =>
      match console_line obj_names i, console_lines rest obj_names with
      | Some l, Some out => Some (l ++ out)
      | _, _ => None
      end
  end.

(** The text [show_console_result] writes to [std::cout]. *)
Definition show_console_result (result_vec : list bbox_t)
    (obj_names : list string) (frame_id : Z) : option string :=
  match console_lines result_vec obj_names with
  | Some out => Some (endl ++ out)
  | None => None
  end.

(** The label of a box: the class name, the track id when there is one, the
    3-D coordinates when [z_3d] is a number, on a filled background. *)
Definition draw_label (cols rows : Z) (i : bbox_t) (c : color)
    (name : string) : list cmd :=
  let obj_name :=
    if (0 <? track_id i)%N then name ++ " - " ++ show_uint (track_id i)
    else name in
  let text_size := text_width obj_name 12 2 in
  let w2 := u32 (Z.of_N (w i) + 2) in
  let max_width := i32 (if u32 text_size >? w2 then u32 text_size else w2) in
  let max_width := Z.max max_width (i32 (i32 (Z.of_N (w i)) + 2)) in
  let coords_3d :=
    if negb (isnan (z_3d i)) then
      "x:" ++ show_fixed2 (x_3d i) ++ "m y:" ++ show_fixed2 (y_3d i)
      ++ "m z:" ++ show_fixed2 (z_3d i) ++ "m "
    else "" in
  let max_width :=
    if negb (isnan (z_3d i)) then
      let text_size_3d := text_width coords_3d 8 1 in
      let max_width_3d :=
        i32 (if u32 text_size_3d >? w2 then u32 text_size_3d else w2) in
      if max_width_3d >? max_width then max_width_3d else max_width
    else max_width in
  ([FilledRectangle
     (Z.max (i32 (i32 (Z.of_N (x i)) - 1)) 0)
     (Z.max (i32 (i32 (Z.of_N (y i)) - 35)) 0)
     (Z.min (i32 (i32 (Z.of_N (x i)) + max_width)) (i32 (cols - 1)))
     (Z.min (i32 (Z.of_N (y i))) (i32 (rows - 1))) c;
   PutText obj_name (Z.of_N (x i)) (u32 (Z.of_N (y i) - 16)) 8 (0, 0, 0) 2]
  ++ (if String.eqb coords_3d "" then []
      else [PutText coords_3d (Z.of_N (x i)) (u32 (Z.of_N (y i) - 1)) 8
                    (0, 0, 0) 1]))%list.

Definition draw_box (cols rows : Z) (obj_names : list string) (i : bbox_t)
  : option (list cmd) :=
  let c := obj_id_to_color (i32 (Z.of_N (obj_id i))) in
  let box := Rectangle (i32 (Z.of_N (x i))) (i32 (Z.of_N (y i)))
                       (i32 (Z.of_N (w i))) (i32 (Z.of_N (h i))) c 2 in
  if in_range obj_names i then
    match index obj_names (obj_id i) with
    | Some name => Some (box :: draw_label cols rows i c name)
    | None => None
    end
  else Some [box].

Fixpoint draw_all (cols rows : Z) (result_vec : list bbox_t)
    (obj_names : list string) : option (list cmd) :=
  match result_vec with
  | [] => Some []
  | i :: rest =>
      match draw_box cols rows obj_names i, draw_all cols rows rest obj_names with
      | Some cs, Some out => Some (cs ++ out)%list
      | _, _ => None
      end
  end.

(** [draw_boxes] on an image of [cols] by [rows] pixels. *)
Definition draw_boxes (cols rows : Z) (result_vec : list bbox_t)
    (obj_names : list string) (current_det_fps current_cap_fps : Z)
  : option (list cmd) :=
  match draw_all cols rows result_vec obj_names with
  | Some out =>
      let fps_str :=
        "FPS detection: " ++ show_int current_det_fps
        ++ "   FPS capture: " ++ show_int current_cap_fps in
      Some (out ++
            if (0 <=? current_det_fps)%Z && (0 <=? current_cap_fps)%Z then
              [PutText fps_str 10 20 12 (50, 255, 0) 2]
            else [])%list
  | None => None
  end.

End console.

(** A detection of class 7, more than the two names of the sample list. *)
Definition sample_box : bbox_t nat :=
  Bbox nat 1 2 3 4 0%nat 7 0 0 0%nat 0%nat 0%nat.

End Console.

(** ** Further invariants of the slot channel, in the value-level view *)

Module SlotMore.
Import Slot.
Section more.
Context {T : Type}.

(** In overwrite mode a thread that only sends is never at a wait and never
    sleeps. *)
Definition never_waits_inv (a : @asys T) : Prop :=
  async a = false /\ no_receive (atodo (aprod a)) = true /\
  (apc (aprod a) = AIdle \/ exists v, apc (aprod a) = ASendXchg v) /\
  EvSleep Producer ∉ atrace a.

(** With one sender and one receiver, in either mode, what has been received
    or is in flight is a subsequence of what has been sent. *)
Definition subseq_inv (a : @asys T) : Prop :=
  spsc_inv a /\
  sublist (recvs (atrace a) ++ ain_hand (acons a) ++ option_list (aslot a))
          (sends (atrace a)).

(** The pending value is the one sent last. *)
Definition latest_inv (a : @asys T) : Prop :=
  forall v, aslot a = Some v -> last (sends (atrace a)) = Some v.

(** Synchronous mode, nobody receives and only the producer sends. *)
Definition stuck_inv (a : @asys T) : Prop :=
  async a = true /\
  prod_pt (apc (aprod a)) = true /\ no_receive (atodo (aprod a)) = true /\
  apc (acons a) = AIdle /\
  no_receive (atodo (acons a)) = true /\ no_send (atodo (acons a)) = true /\
  (forall v, apc (aprod a) = ASendXchg v -> aslot a = None) /\
  match aslot a with
  | None => sends (atrace a) = []
  | Some _ => length (sends (atrace a)) = 1
  end.

(** The thread an event belongs to, and the events of one thread. *)
Definition event_tid (e : @event T) : tid :=
  match e with
  | EvSend t _ | EvDrop t _ | EvRecv t _ | EvPresent t _ | EvSleep t => t
  end.

Definition events_of (t : tid) (tr : list (@event T)) : list event :=
  filter (fun e => event_tid e = t) tr.

Definition is_present_true (e : @event T) : bool :=
  match e with EvPresent _ true => true | _ => false end.
Definition is_sleep (e : @event T) : bool :=
  match e with EvSleep _ => true | _ => false end.

(** No sleep comes right after an [is_object_present] that answered [true]. *)
Fixpoint calm (l : list (@event T)) : bool :=
  match l with
  | [] => true
  | e :: l' =>
      match l' with
      | e' :: _ => negb (is_present_true e && is_sleep e') && calm l'
      | [] => true
      end
  end.

(** Whether the last event is an [is_object_present] that answered [true]. *)
Definition hot (l : list (@event T)) : bool :=
  match last l with
  | Some e => is_present_true e
  | None => false
  end.

Definition calm_inv (a : @asys T) : Prop :=
  spsc_inv a /\
  calm (events_of Consumer (atrace a)) = true /\
  (hot (events_of Consumer (atrace a)) = true ->
   aslot a <> None \/ exists v, apc (acons a) = ARecvCopy v).

End more.
End SlotMore.

(** ** Further vocabulary for the printers *)

Module ConsoleMore.
Import Console.
Local Open Scope Z_scope.
Local Open Scope string_scope.

Definition is_rectangle (c : cmd) : bool :=
  match c with
  | Rectangle _ _ _ _ _ _ => true
  | _ => false
  end.

(** The values of type [int].  A signed sum that leaves them is undefined
    behaviour. *)
Definition is_int (z : Z) : bool := (- 2 ^ 31 <=? z)%Z && (z <? 2 ^ 31)%Z.

(** The [float] nearest to an [int], ties to even, as the constructor
    [cv::Point2f(int, int)] stores it: a [float] has 24 bits of
    significand, so integers beyond [2 ^ 24] are rounded. *)
Definition to_float (z : Z) : Z :=
  let a := Z.abs z in
  let e := Z.log2 a - 23 in
  if (e <=? 0)%Z then z
  else
    let ulp := 2 ^ e in
    let q := a / ulp in
    let r := a mod ulp in
    let q' := if (2 * r <? ulp)%Z then q
              else if (ulp <? 2 * r)%Z then q + 1
              else if Z.even q then q else q + 1 in
    Z.sgn z * (q' * ulp).

Section console_more.
Variable F : Type.
Variable obj_id_to_color : Z -> color.

(** The outline [draw_boxes] draws first for a detection:
    [cv::rectangle(mat_img, cv::Rect(i.x, i.y, i.w, i.h), color, 2)]. *)
Definition outline (i : bbox_t F) : cmd :=
  Rectangle (i32 (Z.of_N (x F i))) (i32 (Z.of_N (y F i)))
            (i32 (Z.of_N (w F i))) (i32 (Z.of_N (h F i)))
            (obj_id_to_color (i32 (Z.of_N (obj_id F i)))) 2.

Variable show_prec3 : F -> string.

(** The console lines of detections printed without any name. *)
Fixpoint all_details (result_vec : list (bbox_t F)) : string :=
  match result_vec with
  | [] => ""
  | i :: rest => details F show_prec3 i ++ all_details rest
  end.

Variable isnan : F -> bool.
Variable show_fixed2 : F -> string.
Variable text_width : string -> Z -> Z -> Z.

(** The value of [max_width] when the background of a label is drawn. *)
Definition label_width (i : bbox_t F) (name : string) : Z :=
  let obj_name :=
    if (0 <? track_id F i)%N then name ++ " - " ++ show_uint (track_id F i)
    else name in
  let text_size := text_width obj_name 12 2 in
  let w2 := u32 (Z.of_N (w F i) + 2) in
  let max_width := i32 (if (u32 text_size >? w2)%Z then u32 text_size else w2) in
  let max_width := Z.max max_width (i32 (i32 (Z.of_N (w F i)) + 2)) in
  let coords_3d :=
    if negb (isnan (z_3d F i)) then
      "x:" ++ show_fixed2 (x_3d F i) ++ "m y:" ++ show_fixed2 (y_3d F i)
      ++ "m z:" ++ show_fixed2 (z_3d F i) ++ "m "
    else "" in
  if negb (isnan (z_3d F i)) then
    let text_size_3d := text_width coords_3d 8 1 in
    let max_width_3d :=
      i32 (if (u32 text_size_3d >? w2)%Z then u32 text_size_3d else w2) in
    if (max_width_3d >? max_width)%Z then max_width_3d else max_width
  else max_width.

(** The signed sums of a label stay among the [int] values: [(int)i.w + 2],
    [(int)i.x - 1], [(int)i.y - 35], [(int)i.x + max_width],
    [mat_img.cols - 1] and [mat_img.rows - 1]. *)
Definition signed_sums_fit (cols rows : Z) (i : bbox_t F) (name : string)
  : bool :=
  is_int (i32 (Z.of_N (w F i)) + 2)
  && is_int (i32 (Z.of_N (x F i)) - 1)
  && is_int (i32 (Z.of_N (y F i)) - 35)
  && is_int (i32 (Z.of_N (x F i)) + label_width i name)
  && is_int (cols - 1)
  && is_int (rows - 1).

End console_more.

(** A detection of class 1, which the sample list names. *)
Definition named_box : bbox_t nat :=
  Bbox nat 10 20 30 40 0%nat 1 0 0 0%nat 0%nat 0%nat.

End ConsoleMore.

(** ** The program [main] *)

Module Tool.
Import Names Console.
Local Open Scope Z_scope.
Local Open Scope string_scope.

Section tool.
Variable F : Type.
Variable isnan : F -> bool.
Variable show_prec3 : F -> string.
Variable show_fixed2 : F -> string.
Variable obj_id_to_color : Z -> color.
Variable text_width : string -> Z -> Z -> Z.

(** [cv::Mat], [cv::imread], and the [Detector] built from a configuration and
    a weights file, with its method [detect]: all of OpenCV and Darknet. *)
Variable Mat : Type.
Variable imread : string -> Mat.
Variable cols : Mat -> Z.
Variable rows : Mat -> Z.
Variable detect : string -> string -> Mat -> list (bbox_t F).

(** What [main] leaves behind: the text on [std::cout], the drawing on the
    image it shows, and its return value.  [argv] holds the program name and
    the arguments; [argv[1]] is a null pointer when there is no argument, and
    assigning it to a [std::string] is undefined behaviour, reported as
    [None]. *)
Definition main (fs : string -> option string) (argv : list string)
  : option (string * list cmd * Z) :=
  let names_file := "coco.names" in
  let cfg_file := "yolov3-tiny.cfg" in
  let weights_file := "yolov3-tiny.weights" in
  match argv !! 1%nat with
  | None => None
  | Some filename =>
      match objects_names_from_file fs names_file with
      | None => None
      | Some (obj_names, out1) =>
          let mat_img := imread filename in
          let result_vec := detect cfg_file weights_file mat_img in
          match draw_boxes F isnan show_fixed2 obj_id_to_color text_width
                           (cols mat_img) (rows mat_img)
                           result_vec obj_names (-1) (-1),
                show_console_result F show_prec3 result_vec obj_names (-1)
          with
          | Some drawn, Some out2 => Some (out1 ++ out2, drawn, 0)
          | _, _ => None
          end
      end
  end.

End tool.
End Tool.

(** Sample states used to instantiate the theorems. *)
Module SlotSamples.
Import Slot.

(** Overwrite mode, after [send(5)] by the producer; the consumer is about to
    call [receive] and then [is_object_present]. *)
Definition c5_state : @sys Z :=
  Sys (Chan false (Some 0)) [Some 5%Z] (Thread [] Idle)
      (Thread [Receive; IsPresent] Idle) [EvSend Producer 5%Z].

(** Two receivers raced for one value: the producer thread sent 1 and then
    called [receive] itself; both threads passed the presence check, the
    producer thread took the value, and the consumer is about to exchange. *)
Definition raced_state : @sys Z :=
  Sys (Chan false None) [Some 1%Z] (Thread [] (RecvCopy 0))
      (Thread [] RecvXchg) [EvSend Producer 1%Z].

(** Synchronous mode: the consumer called [receive] on the empty slot and
    slept once, then the producer completed [send(42)]. *)
Definition sent_state : @sys Z :=
  Sys (Chan true (Some 0)) [Some 42%Z] (Thread [] Idle) (Thread [] RecvPoll)
      [EvSleep Consumer; EvSend Producer 42%Z].

End SlotSamples.

(** ** Facts about the slot channel *)

Module SlotFacts.
Import Slot SlotSamples.

Section heap_facts.
Context {T : Type}.
Implicit Types (h : heap T) (l : loc) (v : T).

Lemma deref_Some h l v : deref h l = Some v <-> h !! l = Some (Some v).
Proof.
  unfold deref. destruct (h !! l) as [[w|]|]; split; intros E; congruence.
Qed.

Lemma deref_fresh h : deref h (length h) = None.
Proof.
  unfold deref. rewrite (lookup_ge_None_2 h (length h)); [done | lia].
Qed.

Lemma lookup_alloc_old h l v w :
  h !! l = Some (Some w) -> (h ++ [Some v]) !! l = Some (Some w).
Proof. intros E. rewrite lookup_app_l; [done | by eapply lookup_lt_Some]. Qed.

Lemma lookup_alloc_new h v : (h ++ [Some v]) !! length h = Some (Some v).
Proof. rewrite lookup_app_r, Nat.sub_diag; [done | lia]. Qed.

Lemma deref_alloc h l v :
  is_Some (deref (h ++ [Some v]) l) <-> l = length h \/ is_Some (deref h l).
Proof.
  unfold deref. destruct (decide (l < length h)) as [Hlt | Hge].
  - rewrite lookup_app_l by done. split; [tauto |].
    intros [-> | E]; [lia | done].
  - destruct (decide (l = length h)) as [-> | Hne].
    + rewrite lookup_alloc_new. split; [tauto | eauto].
    + rewrite (lookup_ge_None_2 (h ++ _) l) by (rewrite length_app; simpl; lia).
      rewrite (lookup_ge_None_2 h l) by lia.
      split; [intros [? ?]; done | intros [? | [? ?]]; done].
Qed.

Lemma lookup_free_ne h l l' :
  l <> l' -> (<[l:=None]> h) !! l' = h !! l'.
Proof. intros. by rewrite list_lookup_insert_ne. Qed.

Lemma deref_free h l l' :
  is_Some (deref (<[l:=None]> h) l') <-> l' <> l /\ is_Some (deref h l').
Proof.
  unfold deref. destruct (decide (l = l')) as [-> | Hne].
  - destruct (decide (l' < length h)).
    + rewrite list_lookup_insert_eq by done.
      split; [intros [? ?]; done | tauto].
    + rewrite list_insert_ge by lia. rewrite (lookup_ge_None_2 h l') by lia.
      split; [intros [? ?]; done | tauto].
  - rewrite list_lookup_insert_ne by done. split; [ | tauto].
    intros E. split; [congruence | done].
Qed.

Lemma free_live h l v :
  h !! l = Some (Some v) -> free h l = Some (<[l:=None]> h).
Proof. intros E. unfold free. apply deref_Some in E. by rewrite E. Qed.

End heap_facts.

Section sim_facts.
Context {T : Type}.
Implicit Types (h : heap T) (l : loc) (v : T).
Implicit Types (c : @send_one_replaceable_object_t).
Implicit Types (th : @thread T) (ath : @athread T) (F : list loc).
Implicit Types (s : @sys T) (a : @asys T) (tr : list (@event T)).

(** *** The value-level view follows the heap machine *)

Lemma slot_rel_frame h h' p (a : option T) :
  slot_rel h p a ->
  (forall l w, p = Some l -> h !! l = Some (Some w) -> h' !! l = Some (Some w)) ->
  slot_rel h' p a.
Proof. destruct p, a; simpl; eauto. Qed.

Lemma step_thread_sim t c h th F aslot ath :
  slot_rel h (a_ptr c) aslot ->
  th_rel h th ath ->
  NoDup (option_list (a_ptr c) ++ th_locs th ++ F) ->
  (forall l, l ∈ option_list (a_ptr c) ++ th_locs th ++ F
             <-> is_Some (deref h l)) ->
  exists c' h' th' evs aslot' ath',
    step_thread t c h th = Some (c', h', th', evs) /\
    astep_thread t (sync c) aslot ath = (aslot', ath', evs) /\
    sync c' = sync c /\
    slot_rel h' (a_ptr c') aslot' /\
    th_rel h' th' ath' /\
    NoDup (option_list (a_ptr c') ++ th_locs th' ++ F) /\
    (forall l, l ∈ option_list (a_ptr c') ++ th_locs th' ++ F
               <-> is_Some (deref h' l)) /\
    (forall l w, l ∈ F -> h !! l = Some (Some w) -> h' !! l = Some (Some w)).
Proof.
  destruct c as [b p], th as [td pt], ath as [atd apt].
  unfold th_rel, step_thread, astep_thread, th_locs; simpl.
  intros Hs [-> Hp] Hnd Hlive.
  destruct pt, apt; simpl in Hp; try done.
  - destruct atd as [|[v | |] rest].
    + do 6 eexists. split_and!; try done.
    + assert (Hfresh : length h ∉ option_list p ++ [] ++ F).
      { rewrite Hlive, deref_fresh. by intros [? ?]. }
      do 6 eexists. split_and!; try done; simpl.
      * eapply slot_rel_frame; [done |]. eauto using lookup_alloc_old.
      * destruct b; simpl; eauto using lookup_alloc_new.
      * assert (NoDup (option_list p ++ [length h] ++ F)).
        { apply NoDup_app in Hnd as (H1 & H2 & H3). simpl in *.
          apply NoDup_app. split_and!; [done | set_solver |].
          constructor; [set_solver | done]. }
        by destruct b.
      * intros l. rewrite deref_alloc, <- Hlive. destruct b; set_solver.
      * eauto using lookup_alloc_old.
    + do 6 eexists. split_and!; try done.
    + assert (is_object_present (Chan b p)
              = match aslot with Some _ => true | None => false end) as E.
      { by destruct p, aslot. }
      rewrite E. do 6 eexists. split_and!; done.
  - destruct Hp as [<- Hl]. destruct p as [o|], aslot as [w|]; try done.
    + do 6 eexists. split_and!; try done.
    + do 6 eexists. split_and!; try done.
  - destruct Hp as [<- Hl]. destruct p as [o|], aslot as [w|]; try done; simpl in *.
    + rewrite (proj2 (deref_Some _ _ _) Hs), (free_live _ _ _ Hs).
      apply NoDup_cons in Hnd as [Ho Hnd]. apply NoDup_cons in Hnd as [Hn HF].
      assert (o <> new_ptr) by set_solver.
      do 6 eexists. split_and!; try done; simpl.
      * by rewrite lookup_free_ne.
      * constructor; [set_solver | done].
      * intros l. rewrite deref_free, <- Hlive. set_solver.
      * intros l w' Hin E. rewrite lookup_free_ne; [done | set_solver].
    + do 6 eexists. split_and!; done.
  - destruct p as [o|], aslot as [w|]; try done.
    + do 6 eexists. split_and!; try done.
    + do 6 eexists. split_and!; try done.
  - destruct p as [o|], aslot as [w|]; try done.
    + do 6 eexists. split_and!; try done.
    + do 6 eexists. split_and!; try done.
  - simpl in *. rewrite (proj2 (deref_Some _ _ _) Hp), (free_live _ _ _ Hp).
    apply NoDup_app in Hnd as (H1 & H2 & H3). apply NoDup_cons in H3 as [H3 H4].
    assert (ptr ∉ option_list p ++ F) by set_solver.
    assert (NoDup (option_list p ++ F)).
    { apply NoDup_app. set_solver. }
    do 6 eexists. split_and!; try done; simpl.
    + eapply slot_rel_frame; [done |]. intros l w -> E.
      rewrite lookup_free_ne; [done | set_solver].
    + intros l. rewrite deref_free, <- Hlive. set_solver.
    + intros l w Hin E. rewrite lookup_free_ne; [done | set_solver].
Qed.

Lemma th_rel_frame h h' th ath :
  th_rel h th ath ->
  (forall l w, l ∈ th_locs th -> h !! l = Some (Some w) -> h' !! l = Some (Some w)) ->
  th_rel h' th ath.
Proof.
  destruct th as [td pt], ath as [atd apt]. unfold th_rel, th_locs; simpl.
  intros [-> Hp] Hf. split; [done |].
  destruct pt, apt; simpl in *; try done;
    repeat match goal with H : _ /\ _ |- _ => destruct H as [-> H]; split; [done |] end;
    apply Hf; set_solver.
Qed.

Lemma sim_step t s a :
  wf s -> sim s a ->
  exists s', step t s = Some s' /\ wf s' /\ sim s' (astep t a).
Proof.
  destruct s as [c h p q tr], a as [b sl ap aq atr].
  unfold wf, sim, owned, step, astep; simpl.
  intros [Hnd Hlive] (<- & <- & Hs & Hp & Hq). destruct t.
  - destruct (step_thread_sim Producer c h p (th_locs q) sl ap Hs Hp Hnd Hlive)
      as (c' & h' & p' & evs & sl' & ap' & -> & -> & Hb & Hs' & Hp' & Hnd' & Hl' & Hf).
    eexists. split; [done |]. simpl. split_and!; try done.
    eapply th_rel_frame; eauto.
  - assert (Hperm : forall o x y : list loc, o ++ x ++ y ≡ₚ o ++ y ++ x).
    { intros o x y. f_equiv. apply Permutation_app_comm. }
    destruct (step_thread_sim Consumer c h q (th_locs p) sl aq Hs Hq)
      as (c' & h' & q' & evs & sl' & aq' & -> & -> & Hb & Hs' & Hq' & Hnd' & Hl' & Hf).
    { by rewrite Hperm. }
    { intros l. by rewrite Hperm. }
    eexists. split; [done |]. simpl. split_and!; try done.
    + by rewrite Hperm.
    + intros l. by rewrite Hperm.
    + eapply th_rel_frame; eauto.
Qed.

Lemma sim_run sch s a :
  wf s -> sim s a ->
  exists s', run sch s = Some s' /\ wf s' /\ sim s' (arun sch a).
Proof.
  revert s a. induction sch as [| t sch IH]; intros s a Hw Hs; simpl.
  - eauto.
  - destruct (sim_step t s a Hw Hs) as (s' & -> & Hw' & Hs'). eauto.
Qed.

Lemma sim_init b (p q : list (@op T)) :
  wf (init b p q) /\ sim (init b p q) (ainit b p q).
Proof.
  unfold wf, sim, owned, th_rel; simpl. split_and!; try done.
  - constructor.
  - intros l. unfold deref. rewrite lookup_nil. split; [set_solver | by intros [? ?]].
Qed.

Lemma any_run b (p q : list (@op T)) sch :
  exists s, run sch (init b p q) = Some s /\ wf s /\
            sim s (arun sch (ainit b p q)).
Proof. destruct (sim_init b p q) as [Hw Hs]. by apply sim_run. Qed.

Lemma run_app sch1 sch2 s :
  run (sch1 ++ sch2) s = match run sch1 s with Some s' => run sch2 s' | None => None end.
Proof.
  revert s. induction sch1 as [| t sch1 IH]; intros s; simpl; [done |].
  destruct (step t s); [apply IH | done].
Qed.

Lemma arun_app sch1 sch2 a : arun (sch1 ++ sch2) a = arun sch2 (arun sch1 a).
Proof. revert a. induction sch1 as [| t sch1 IH]; intros a; simpl; auto. Qed.

Lemma reachable_init b (p q : list (@op T)) : reachable (init b p q).
Proof. by exists b, p, q, []. Qed.

Lemma reachable_run sch s s' : reachable s -> run sch s = Some s' -> reachable s'.
Proof.
  intros (b & p & q & sch0 & E) Hrun. exists b, p, q, (sch0 ++ sch).
  by rewrite run_app, E.
Qed.

Lemma reachable_sim s :
  reachable s -> wf s /\ exists a, sim s a.
Proof.
  intros (b & p & q & sch & Hrun).
  destruct (sim_init b p q) as [Hw Hs].
  destruct (sim_run sch _ _ Hw Hs) as (s' & E & Hw' & Hs').
  rewrite Hrun in E. injection E as <-. eauto.
Qed.

(** From a reachable state every schedule runs, and the value-level view
    follows it. *)
Lemma reachable_follow s sch :
  reachable s ->
  exists a s', sim s a /\ run sch s = Some s' /\ reachable s' /\
               sim s' (arun sch a).
Proof.
  intros Hr. destruct (reachable_sim s Hr) as (Hw & a & Hs).
  destruct (sim_run sch s a Hw Hs) as (s' & E & Hw' & Hs').
  exists a, s'. split_and!; try done. by eapply reachable_run.
Qed.

(** *** Observations agree in corresponding states *)

Lemma sim_trace s a : sim s a -> trace s = atrace a.
Proof. by intros (_ & ? & _). Qed.

Lemma sim_sync s a : sim s a -> sync (ch s) = async a.
Proof. by intros (? & _). Qed.

Lemma sim_pending s a : sim s a -> pending s = aslot a.
Proof.
  intros (_ & _ & Hs & _). unfold pending.
  destruct (a_ptr (ch s)), (aslot a); simpl in Hs; try done.
  by apply deref_Some.
Qed.

Lemma sim_slot_empty s a : sim s a -> a_ptr (ch s) = None <-> aslot a = None.
Proof.
  intros (_ & _ & Hs & _). destruct (a_ptr (ch s)), (aslot a); simpl in Hs; done.
Qed.

Lemma sim_thr t s a : sim s a -> th_rel (mem s) (thr t s) (athr t a).
Proof. intros (_ & _ & _ & Hp & Hq). by destruct t. Qed.

Lemma th_rel_in_hand h th ath : th_rel h th ath -> in_hand h th = ain_hand ath.
Proof.
  intros [_ Hp]. unfold in_hand, ain_hand.
  destruct (pc th), (apc ath); simpl in Hp; try done.
  apply deref_Some in Hp. by rewrite Hp.
Qed.

Lemma sim_in_flight s a :
  sim s a ->
  in_flight s = ain_hand (aprod a) ++ ain_hand (acons a) ++ option_list (aslot a).
Proof.
  intros Hs. unfold in_flight. rewrite (sim_pending s a Hs).
  destruct Hs as (_ & _ & _ & Hp & Hq).
  by rewrite (th_rel_in_hand _ _ _ Hp), (th_rel_in_hand _ _ _ Hq).
Qed.

Lemma th_rel_unsent h th ath : th_rel h th ath -> unsent th = aunsent ath.
Proof.
  intros [E Hp]. unfold unsent, aunsent. rewrite E.
  destruct (pc th), (apc ath); simpl in Hp; try done; by destruct Hp as [-> _].
Qed.

Lemma th_rel_finished h th ath : th_rel h th ath -> finished th <-> afinished ath.
Proof.
  intros [E Hp]. unfold finished, afinished. rewrite E.
  destruct (pc th), (apc ath); simpl in Hp; try done; split; intros [? ?]; done.
Qed.

Lemma th_rel_idle h th ath td :
  th_rel h th ath -> th = Thread td Idle <-> ath = AThread td AIdle.
Proof.
  destruct th as [td' pt], ath as [atd apt]. intros [E Hp]; simpl in *. subst.
  destruct pt, apt; simpl in Hp; try done; split; intros [= ->]; done.
Qed.

Lemma th_rel_poll h th ath td :
  th_rel h th ath -> th = Thread td RecvPoll <-> ath = AThread td ARecvPoll.
Proof.
  destruct th as [td' pt], ath as [atd apt]. intros [E Hp]; simpl in *. subst.
  destruct pt, apt; simpl in Hp; try done; split; intros [= ->]; done.
Qed.

Lemma th_rel_xchg h th ath td :
  th_rel h th ath -> th = Thread td RecvXchg <-> ath = AThread td ARecvXchg.
Proof.
  destruct th as [td' pt], ath as [atd apt]. intros [E Hp]; simpl in *. subst.
  destruct pt, apt; simpl in Hp; try done; split; intros [= ->]; done.
Qed.

Lemma th_rel_wait h th ath td v :
  th_rel h th ath ->
  (exists l, th = Thread td (SendWait v l)) <-> ath = AThread td (ASendWait v).
Proof.
  destruct th as [td' pt], ath as [atd apt]. intros [E Hp]; simpl in *. subst.
  destruct pt, apt; simpl in Hp; try done;
    (split; [intros [l [= ]] | intros [= ]]); subst; try done.
  - by destruct Hp as [-> _].
  - destruct Hp as [-> _]. eauto.
Qed.

(** *** The unread cells *)

Lemma unread_spec s :
  wf s -> forall l, l ∈ unread s <-> a_ptr (ch s) = Some l.
Proof.
  intros [Hnd Hlive] l. unfold unread, live_locs.
  rewrite !list_elem_of_filter, elem_of_seq, <- Hlive. unfold owned in *.
  apply NoDup_app in Hnd as (_ & Hdisj & _).
  destruct (a_ptr (ch s)) as [o|]; simpl in *.
  - split.
    + intros (Hn & Hin & _). f_equal. set_solver.
    + intros [= ->]. split; [apply Hdisj; set_solver |].
      split; [set_solver |].
      assert (is_Some (deref (mem s) l)) as [w Hw] by (apply Hlive; set_solver).
      apply deref_Some in Hw. apply lookup_lt_Some in Hw. lia.
  - split; [intros (Hn & Hin & _); done | done].
Qed.

Lemma unread_length s : wf s -> length (unread s) <= 1.
Proof.
  intros Hw.
  assert (unread s ⊆+ option_list (a_ptr (ch s))) as Hsub.
  { apply NoDup_submseteq.
    - unfold unread, live_locs. apply NoDup_filter, NoDup_filter, NoDup_seq.
    - intros l Hl. apply (unread_spec s Hw) in Hl. rewrite Hl. set_solver. }
  apply submseteq_length in Hsub. destruct (a_ptr (ch s)); simpl in *; lia.
Qed.

(** *** Records of runs *)

Lemma sends_app tr tr' : sends (tr ++ tr') = sends tr ++ sends tr'.
Proof. induction tr as [| [] tr IH]; simpl; congruence. Qed.

Lemma drops_app tr tr' : drops (tr ++ tr') = drops tr ++ drops tr'.
Proof. induction tr as [| [] tr IH]; simpl; congruence. Qed.

Lemma recvs_app tr tr' : recvs (tr ++ tr') = recvs tr ++ recvs tr'.
Proof. induction tr as [| [] tr IH]; simpl; congruence. Qed.

Ltac trace_norm :=
  simpl; rewrite ?sends_app, ?drops_app, ?recvs_app; simpl;
  rewrite ?app_nil_r in *; simpl.

(** *** Invariants of the value-level view *)

Lemma account_inv_init b (p q : list (@op T)) : account_inv (ainit b p q).
Proof. by unfold account_inv. Qed.

Lemma account_inv_step t a : account_inv a -> account_inv (astep t a).
Proof.
  destruct a as [b sl [ptd ppt] [ctd cpt] tr].
  unfold account_inv, astep, astep_thread, ain_hand; simpl. intros H.
  destruct t.
  - destruct ppt; simpl.
    + destruct ptd as [| [v | |] ptd]; trace_norm; try done. by destruct b.
    + destruct sl; trace_norm; done.
    + destruct sl; trace_norm; rewrite H; solve_Permutation.
    + destruct sl; trace_norm; done.
    + destruct sl; trace_norm; rewrite H; solve_Permutation.
    + trace_norm. rewrite H. solve_Permutation.
  - destruct cpt; simpl.
    + destruct ctd as [| [v | |] ctd]; trace_norm; try done. by destruct b.
    + destruct sl; trace_norm; done.
    + destruct sl; trace_norm; rewrite H; solve_Permutation.
    + destruct sl; trace_norm; done.
    + destruct sl; trace_norm; rewrite H; solve_Permutation.
    + trace_norm. rewrite H. solve_Permutation.
Qed.

Lemma account_inv_run sch a : account_inv a -> account_inv (arun sch a).
Proof.
  revert a. induction sch as [| t sch IH]; intros a H; simpl; [done |].
  apply IH. by apply account_inv_step.
Qed.

Lemma spsc_inv_init b (p q : list (@op T)) : spsc p q -> spsc_inv (ainit b p q).
Proof. intros [Hp Hq]. unfold spsc_inv; simpl. split_and!; done. Qed.

Lemma spsc_inv_step t a : spsc_inv a -> spsc_inv (astep t a).
Proof.
  destruct a as [b sl [ptd ppt] [ctd cpt] tr].
  unfold spsc_inv, astep, astep_thread; simpl.
  intros (Hpp & Hpt & Hcp & Hct & Hx). destruct t.
  - destruct ppt; try done; simpl.
    + destruct ptd as [| [v | |] ptd]; simpl in *; try done.
      destruct b; done.
    + destruct sl; simpl; split_and!; done.
    + assert (cpt <> ARecvXchg \/ sl <> None) as Hor.
      { destruct cpt; auto; right; auto. }
      destruct sl; simpl; split_and!; try done. 
  - destruct cpt; try done; simpl.
    + destruct ctd as [| [v | |] ctd]; simpl in *; try done.
    + destruct sl; simpl; split_and!; done.
    + destruct sl; simpl; split_and!; done.
Qed.

Lemma spsc_inv_run sch a : spsc_inv a -> spsc_inv (arun sch a).
Proof.
  revert a. induction sch as [| t sch IH]; intros a H; simpl; [done |].
  apply IH. by apply spsc_inv_step.
Qed.

Lemma sync_inv_init (p q : list (@op T)) :
  spsc p q -> sync_inv (send_values p) (ainit true p q).
Proof.
  intros H. unfold sync_inv. split_and!; try done. by apply spsc_inv_init.
Qed.

Lemma sync_inv_step vs t a : sync_inv vs a -> sync_inv vs (astep t a).
Proof.
  intros (Hb & Hi & Hd & Hx & Ho & Hv).
  pose proof (spsc_inv_step t a Hi) as Hi'.
  unfold sync_inv. split; [by destruct a, t; simpl in *; repeat case_match|].
  split; [done |]. clear Hi'.
  destruct a as [b sl [ptd ppt] [ctd cpt] tr].
  destruct Hi as (Hpp & Hpt & Hcp & Hct & Hcx).
  unfold astep, astep_thread, ain_hand, aunsent in *; simpl in *. subst b.
  destruct t.
  - destruct ppt; try done; simpl.
    + destruct ptd as [| [v | |] ptd]; simpl in *; try done;
        trace_norm; split_and!; done.
    + destruct sl; trace_norm; split_and!; done.
    + rewrite (Hx v eq_refl) in *. trace_norm. split_and!; try done.
      * rewrite Ho. by rewrite <- !app_assoc.
      * rewrite <- Hv. by rewrite <- !app_assoc.
  - destruct cpt; try done; simpl.
    + destruct ctd as [| [v | |] ctd]; simpl in *; try done;
        trace_norm; split_and!; done.
    + destruct sl; trace_norm; split_and!; done.
    + destruct sl; trace_norm; split_and!; done.
    + trace_norm. split_and!; try done.
      rewrite Ho. by rewrite <- !app_assoc.
Qed.

Lemma sync_inv_run vs sch a : sync_inv vs a -> sync_inv vs (arun sch a).
Proof.
  revert a. induction sch as [| t sch IH]; intros a H; simpl; [done |].
  apply IH. by apply sync_inv_step.
Qed.

Lemma sync_run (p q : list (@op T)) sch :
  spsc p q ->
  exists s a, run sch (init true p q) = Some s /\ wf s /\ sim s a /\
              sync_inv (send_values p) a.
Proof.
  intros H. destruct (any_run true p q sch) as (s & E & Hw & Hs).
  exists s, (arun sch (ainit true p q)). split_and!; try done.
  by apply sync_inv_run, sync_inv_init.
Qed.

Lemma single_sender_inv_step t a :
  single_sender_inv a -> single_sender_inv (astep t a).
Proof.
  destruct a as [b sl [ptd ppt] [ctd cpt] tr].
  unfold single_sender_inv, astep, astep_thread; simpl.
  intros (-> & Hct & Hcp & Hd & Hx). destruct t.
  - destruct ppt; simpl.
    + destruct ptd as [| [v | |] ptd]; trace_norm; split_and!; done.
    + destruct sl; trace_norm; split_and!; done.
    + rewrite (Hx v eq_refl). trace_norm. split_and!; done.
    + destruct sl; trace_norm; split_and!; done.
    + destruct sl; trace_norm; split_and!; done.
    + trace_norm. split_and!; done.
  - destruct cpt; try done; simpl.
    + destruct ctd as [| [v | |] ctd]; simpl in *; try done;
        trace_norm; split_and!; done.
    + destruct sl; trace_norm; split_and!; done.
    + destruct sl; trace_norm; split_and!; done.
    + trace_norm. split_and!; done.
Qed.

Lemma single_sender_inv_run sch a :
  single_sender_inv a -> single_sender_inv (arun sch a).
Proof.
  revert a. induction sch as [| t sch IH]; intros a H; simpl; [done |].
  apply IH. by apply single_sender_inv_step.
Qed.

(** *** One call run on its own *)

(** The step that runs [is_object_present]. *)
Lemma query_step (t : tid) s (rest : list op) :
  thr t s = Thread (IsPresent :: rest) Idle ->
  exists s', step t s = Some s' /\
    ch s' = ch s /\ mem s' = mem s /\ thr t s' = Thread rest Idle /\
    trace s' = trace s ++ [EvPresent t (is_object_present (ch s))].
Proof.
  destruct s as [c h p q tr]. unfold step.
  destruct t; simpl; intros ->; simpl; eexists; (split; [done |]); done.
Qed.

(** A [send] in synchronous mode facing an occupied slot only sleeps. *)
Lemma ablocked_send_step (t : tid) a v w (rest : list op) :
  async a = true -> aslot a = Some w ->
  athr t a = AThread rest (ASendWait v) ->
  async (astep t a) = true /\ aslot (astep t a) = Some w /\
  athr t (astep t a) = AThread rest (ASendWait v) /\
  atrace (astep t a) = atrace a ++ [EvSleep t].
Proof.
  destruct a as [b sl ap aq atr]; simpl. intros -> -> Ht.
  destruct t; simpl in Ht; subst; done.
Qed.

Lemma ablocked_send k (t : tid) a v w (rest : list op) :
  async a = true -> aslot a = Some w ->
  athr t a = AThread rest (ASendWait v) ->
  aslot (arun (replicate k t) a) = Some w /\
  athr t (arun (replicate k t) a) = AThread rest (ASendWait v) /\
  atrace (arun (replicate k t) a) = atrace a ++ replicate k (EvSleep t).
Proof.
  revert a. induction k as [| k IH]; intros a Hb Hsl Ht.
  - simpl. by rewrite app_nil_r.
  - change (arun (replicate (S k) t) a) with (arun (replicate k t) (astep t a)).
    destruct (ablocked_send_step t a v w rest Hb Hsl Ht) as (Hb' & Hsl' & Ht' & Htr).
    destruct (IH _ Hb' Hsl' Ht') as (E1 & E2 & E3).
    rewrite E1, E2, E3, Htr. simpl. by rewrite <- app_assoc.
Qed.

(** A [receive] facing an empty slot only sleeps. *)
Lemma awaiting_receive_step (t : tid) a (rest : list op) :
  aslot a = None -> athr t a = AThread rest ARecvPoll ->
  aslot (astep t a) = None /\
  athr t (astep t a) = AThread rest ARecvPoll /\
  atrace (astep t a) = atrace a ++ [EvSleep t].
Proof.
  destruct a as [b sl ap aq atr]; simpl. intros -> Ht.
  destruct t; simpl in Ht; subst; done.
Qed.

Lemma awaiting_receive k (t : tid) a (rest : list op) :
  aslot a = None -> athr t a = AThread rest ARecvPoll ->
  aslot (arun (replicate k t) a) = None /\
  athr t (arun (replicate k t) a) = AThread rest ARecvPoll /\
  atrace (arun (replicate k t) a) = atrace a ++ replicate k (EvSleep t).
Proof.
  revert a. induction k as [| k IH]; intros a Hsl Ht.
  - simpl. by rewrite app_nil_r.
  - change (arun (replicate (S k) t) a) with (arun (replicate k t) (astep t a)).
    destruct (awaiting_receive_step t a rest Hsl Ht) as (Hsl' & Ht' & Htr).
    destruct (IH _ Hsl' Ht') as (E1 & E2 & E3).
    rewrite E1, E2, E3, Htr. simpl. by rewrite <- app_assoc.
Qed.

Lemma step_producer_only s s' :
  step Producer s = Some s' -> consumer s' = consumer s.
Proof.
  unfold step.
  destruct (step_thread Producer (ch s) (mem s) (producer s))
    as [[[[c' h'] th'] evs] |]; [| done].
  by intros [= <-].
Qed.

Lemma run_producer_only k s s' :
  run (replicate k Producer) s = Some s' -> consumer s' = consumer s.
Proof.
  revert s. induction k as [| k IH]; intros s.
  - simpl. by intros [= <-].
  - change (run (replicate (S k) Producer) s)
      with (match step Producer s with
            | Some s1 => run (replicate k Producer) s1
            | None => None
            end).
    destruct (step Producer s) as [s1 |] eqn:E; [| done].
    intros H. rewrite (IH _ H). by apply step_producer_only.
Qed.

(** A [receive] that takes the pending value, then [is_object_present]. *)
Lemma receive_then_query s (t : tid) v (rest : list op) :
  reachable s -> pending s = Some v ->
  thr t s = Thread (Receive :: IsPresent :: rest) Idle ->
  exists s', run (replicate 5 t) s = Some s' /\
    trace s' = trace s ++ [EvRecv t v; EvPresent t false] /\
    pending s' = None.
Proof.
  intros Hr Hp Ht.
  destruct (reachable_follow s (replicate 5 t) Hr) as (a & s' & Hs & E & Hr' & Hs').
  exists s'. split; [done |].
  rewrite (sim_pending s a Hs) in Hp.
  apply (th_rel_idle _ _ _ _ (sim_thr t s a Hs)) in Ht.
  rewrite (sim_pending s' _ Hs'), (sim_trace s' _ Hs'), (sim_trace s a Hs).
  destruct a as [b sl ap aq atr]. simpl in *. subst sl.
  destruct t; simpl in Ht; subst; unfold astep; simpl;
    by rewrite ?app_nil_r, <- ?app_assoc.
Qed.

(** In overwrite mode two sends in a row leave the second value pending and
    delete the first; the record says so. *)
Lemma overwrite_two_sends s (x y : T) (pr : list op) :
  reachable s -> sync (ch s) = false ->
  producer s = Thread (Send x :: Send y :: pr) Idle ->
  exists s1, run (replicate 4 Producer) s = Some s1 /\
    reachable s1 /\ pending s1 = Some y /\
    producer s1 = Thread pr Idle /\ consumer s1 = consumer s /\
    trace s1 = trace s
               ++ match pending s with
                  | Some o => [EvDrop Producer o]
                  | None => []
                  end
               ++ [EvSend Producer x; EvDrop Producer x; EvSend Producer y].
Proof.
  intros Hr Hb Ht.
  destruct (reachable_follow s (replicate 4 Producer) Hr)
    as (a & s1 & Hs & E & Hr1 & Hs1).
  exists s1. split; [done |]. split; [done |].
  pose proof (run_producer_only 4 s s1 E) as Hc.
  rewrite (sim_sync s a Hs) in Hb.
  apply (th_rel_idle _ _ _ _ (sim_thr Producer s a Hs)) in Ht.
  rewrite (sim_pending s1 _ Hs1), (sim_trace s1 _ Hs1), (sim_trace s a Hs).
  rewrite (sim_pending s a Hs).
  rewrite (th_rel_idle _ _ _ _ (sim_thr Producer s1 _ Hs1)).
  destruct a as [b sl ap aq atr]. simpl in *. subst b ap.
  destruct sl; unfold astep; simpl; rewrite ?app_nil_r, <- ?app_assoc; done.
Qed.

(** *** The hand-off schedule *)

Lemma ahandoff_round v (p q : list (@op T)) tr :
  arun [Producer; Producer; Producer; Consumer; Consumer; Consumer; Consumer]
       (ASys true None (AThread (Send v :: p) AIdle)
             (AThread (Receive :: q) AIdle) tr)
  = ASys true None (AThread p AIdle) (AThread q AIdle)
         (tr ++ [EvSend Producer v; EvRecv Consumer v]).
Proof. simpl. unfold astep; simpl. by rewrite !app_nil_r, <- app_assoc. Qed.

Lemma ahandoff (vs : list T) tr :
  arun (handoff_schedule (length vs))
       (ASys true None (AThread (map Send vs) AIdle)
             (AThread (replicate (length vs) Receive) AIdle) tr)
  = ASys true None (AThread [] AIdle) (AThread [] AIdle)
         (tr ++ handoff_trace vs).
Proof.
  revert tr. induction vs as [| v vs IH]; intros tr.
  - simpl. by rewrite app_nil_r.
  - change (handoff_schedule (length (v :: vs)))
      with ([Producer; Producer; Producer; Consumer; Consumer; Consumer; Consumer]
              ++ handoff_schedule (length vs)).
    rewrite arun_app. simpl map. simpl replicate.
    rewrite ahandoff_round, IH. simpl. by rewrite <- app_assoc.
Qed.

Lemma recvs_handoff_trace (vs : list T) : recvs (handoff_trace vs) = vs.
Proof. induction vs as [| v vs IH]; simpl; congruence. Qed.

(** *** A send meeting a receive on an empty slot *)

Lemma replicate_snoc {A} (n : nat) (x : A) :
  replicate n x ++ [x] = replicate (S n) x.
Proof. induction n as [| n IH]; simpl; [done | by rewrite IH]. Qed.

Lemma before_insert_step v (rest : list op) tr0 t a :
  before_insert v rest tr0 a ->
  before_insert v rest tr0 (astep t a) \/
  (exists k, k <= 4 /\ after_insert v rest tr0 k (astep t a)).
Proof.
  destruct a as [b sl ap aq atr]. unfold before_insert; simpl.
  intros (-> & [n ->] & Hp & Hq). destruct t; simpl.
  - destruct Hp as [-> | [-> | ->]]; simpl.
    + left. rewrite app_nil_r. split_and!; eauto. destruct b; eauto.
    + left. rewrite app_nil_r. split_and!; eauto.
    + right. destruct Hq as [-> | ->].
      * exists 4. split; [lia |]. split; [done |]. exists n. simpl.
        by rewrite <- app_assoc.
      * exists 3. split; [lia |]. split; [done |]. exists n. simpl.
        by rewrite <- app_assoc.
  - left. destruct Hq as [-> | ->]; simpl.
    + rewrite app_nil_r. split_and!; eauto.
    + split_and!; eauto. exists (S n).
      by rewrite <- app_assoc, replicate_snoc.
Qed.

Lemma after_insert_producer v (rest : list op) tr0 k a :
  after_insert v rest tr0 k a -> after_insert v rest tr0 k (astep Producer a).
Proof.
  destruct a as [b sl ap aq atr]. unfold after_insert; simpl.
  intros (-> & n & H). simpl. split; [done |]. exists n. by rewrite app_nil_r.
Qed.

Lemma after_insert_consumer v (rest : list op) tr0 k a :
  k <= 4 ->
  after_insert v rest tr0 k a ->
  after_insert v rest tr0 (pred k) (astep Consumer a).
Proof.
  destruct a as [b sl ap aq atr]. unfold after_insert, astep; simpl.
  intros Hk (-> & n & H).
  destruct (astep_thread Consumer b sl aq) as [[sl' aq'] evs] eqn:E; simpl.
  split; [done |]. exists n.
  destruct k as [| [| [| [| [| k]]]]]; try lia; simpl.
  - destruct H as [tr3 ->]. exists (tr3 ++ evs). by rewrite <- !app_assoc.
  - destruct H as (-> & -> & ->). simpl in E. injection E as <- <- <-.
    exists []. by rewrite <- !app_assoc.
  - destruct H as (-> & -> & ->). simpl in E. injection E as <- <- <-.
    by rewrite app_nil_r.
  - destruct H as (-> & -> & ->). simpl in E. injection E as <- <- <-.
    by rewrite app_nil_r.
  - destruct H as (-> & -> & ->). simpl in E. injection E as <- <- <-.
    by rewrite app_nil_r.
Qed.

Lemma after_insert_run v (rest : list op) tr0 sch k a :
  k <= 4 -> after_insert v rest tr0 k a ->
  after_insert v rest tr0 (k - count_steps Consumer sch) (arun sch a).
Proof.
  revert a k. induction sch as [| u sch IH]; intros a k Hk Ha; simpl.
  - by rewrite Nat.sub_0_r.
  - destruct u; unfold count_steps; simpl.
    + apply IH; [done |].
      by apply after_insert_producer.
    + simpl.
      replace (k - S (length (filter (fun u => u = Consumer) sch)))
        with (pred k - count_steps Consumer sch) by (unfold count_steps; lia).
      apply IH; [lia |]. by apply after_insert_consumer.
Qed.

Lemma before_insert_run v (rest : list op) tr0 sch a :
  before_insert v rest tr0 a ->
  before_insert v rest tr0 (arun sch a) \/
  (exists k, k <= 4 /\ after_insert v rest tr0 k (arun sch a)).
Proof.
  revert a. induction sch as [| t sch IH]; intros a H; simpl; [by left |].
  destruct (before_insert_step v rest tr0 t a H) as [Hb | (k & Hk & Ha)].
  - by apply IH.
  - right. exists (k - count_steps Consumer sch). split; [lia |].
    by apply after_insert_run.
Qed.

(** *** The claims about the slot channel *)

(** C1. In synchronous mode, with one thread sending and the other receiving,
    every interleaving runs without fault, deletes no pending value, and at
    each moment the values sent so far are the values received so far followed
    by the at most one value still in flight; the values sent are a prefix of
    those the producer was given, so once the producer is done and nothing is
    in flight the received sequence is the sent sequence.  Such a complete run
    exists for every list of values. *)
Theorem sync_delivers_in_order :
  (forall (p q : list (@op T)) (sch : list tid),
     spsc p q ->
     exists s, run sch (init true p q) = Some s /\
       drops (trace s) = [] /\
       sends (trace s) = recvs (trace s) ++ in_flight s /\
       sends (trace s) ++ unsent (producer s) = send_values p /\
       (finished (producer s) -> in_flight s = [] ->
        recvs (trace s) = send_values p)) /\
  (forall vs : list T,
     exists s, run (handoff_schedule (length vs))
                   (init true (map Send vs) (replicate (length vs) Receive))
               = Some s /\
       finished (producer s) /\ finished (consumer s) /\
       recvs (trace s) = vs).
Proof.
  split.
  - intros p q sch H.
    destruct (sync_run p q sch H) as (s & a & E & Hw & Hs & Hi).
    exists s. split; [done |].
    destruct Hi as (_ & Hsp & Hd & _ & Ho & Hv).
    pose proof (sim_in_flight s a Hs) as Hf.
    destruct Hs as (_ & Htr & _ & Hp & Hq).
    rewrite (th_rel_unsent _ _ _ Hp), Htr.
    assert (ain_hand (aprod a) = []) as Hnil.
    { destruct Hsp as (Hpp & _). unfold ain_hand. by destruct (apc (aprod a)). }
    rewrite Hnil in Hf. simpl in Hf. rewrite Hf.
    split_and!; try done.
    intros Hfin Hnone. apply (th_rel_finished _ _ _ Hp) in Hfin as [Hpc Htd].
    rewrite <- Hv, Ho. unfold aunsent. rewrite Hpc, Htd. simpl.
    rewrite Hnone. by rewrite !app_nil_r.
  - intros vs.
    destruct (any_run true (map Send vs) (replicate (length vs) Receive)
                (handoff_schedule (length vs))) as (s & E & Hw & Hs).
    exists s. split; [done |].
    unfold ainit in Hs. rewrite ahandoff in Hs.
    destruct Hs as (_ & Htr & _ & Hp & Hq).
    apply th_rel_finished in Hp, Hq. rewrite Htr. simpl.
    split_and!; [by apply Hp | by apply Hq | apply recvs_handoff_trace].
Qed.

(** C3. Whatever the two threads do and however they interleave, no run
    faults and the unread cells (live and held by no thread) are at most one,
    namely the cell the slot points to.  In synchronous mode, when only the
    producer thread sends, a send reaches its exchange only with the slot
    empty, so no pending value is ever deleted: every value sent has been
    received or is still in flight. *)
Theorem slot_holds_at_most_one :
  (forall (b : bool) (p q : list (@op T)) (sch : list tid),
     exists s, run sch (init b p q) = Some s /\
       length (unread s) <= 1 /\
       (forall l, l ∈ unread s <-> a_ptr (ch s) = Some l)) /\
  (forall (p q : list (@op T)) (sch : list tid),
     no_send q = true ->
     exists s, run sch (init true p q) = Some s /\
       (forall v l, pc (producer s) = SendXchg v l -> pending s = None) /\
       drops (trace s) = [] /\
       sends (trace s) ≡ₚ recvs (trace s) ++ in_flight s).
Proof.
  split.
  - intros b p q sch. destruct (any_run b p q sch) as (s & E & Hw & _).
    exists s. split; [done |]. split; [by apply unread_length |].
    by apply unread_spec.
  - intros p q sch H. destruct (any_run true p q sch) as (s & E & Hw & Hs).
    exists s. split; [done |].
    assert (single_sender_inv (arun sch (ainit true p q)))
      as (_ & _ & _ & Hd & Hx).
    { apply single_sender_inv_run. unfold single_sender_inv; simpl.
      split_and!; done. }
    pose proof (account_inv_run sch _ (account_inv_init true p q)) as Ha.
    unfold account_inv in Ha. rewrite Hd in Ha. simpl in Ha.
    rewrite (sim_pending s _ Hs), (sim_trace s _ Hs), (sim_in_flight s _ Hs).
    split_and!; try done.
    intros v l Hpc. apply (Hx v).
    destruct Hs as (_ & _ & _ & [_ Hp] & _). rewrite Hpc in Hp.
    destruct (apc (aprod _)); simpl in Hp; try done. by destruct Hp as [-> _].
Qed.

(** C4. [receive] run on its own.  With a value pending it returns that
    value after four steps and leaves the slot null.  With nothing pending it
    sleeps once per step and does not return.  If it passed its presence
    check and then finds the slot empty at the exchange, it goes back to
    waiting and returns nothing.  From its wait, once a value is pending, it
    returns that value.  And over all runs of any two programs, no run faults
    and each value sent is accounted for exactly once: received, deleted by a
    later send, or in flight. *)
Theorem receive_returns_value :
  (forall s (t : tid) v (rest : list op),
     reachable s -> pending s = Some v ->
     thr t s = Thread (Receive :: rest) Idle ->
     exists s', run (replicate 4 t) s = Some s' /\
       thr t s' = Thread rest Idle /\ a_ptr (ch s') = None /\
       trace s' = trace s ++ [EvRecv t v]) /\
  (forall s (t : tid) (rest : list op) (k : nat),
     reachable s -> pending s = None ->
     thr t s = Thread (Receive :: rest) Idle ->
     exists s', run (replicate (S k) t) s = Some s' /\
       thr t s' = Thread rest RecvPoll /\ a_ptr (ch s') = None /\
       trace s' = trace s ++ replicate k (EvSleep t)) /\
  (forall s (t : tid) (rest : list op) (k : nat),
     reachable s -> pending s = None ->
     thr t s = Thread rest RecvXchg ->
     exists s', run (replicate (S k) t) s = Some s' /\
       thr t s' = Thread rest RecvPoll /\ a_ptr (ch s') = None /\
       trace s' = trace s ++ replicate k (EvSleep t)) /\
  (forall s (t : tid) v (rest : list op),
     reachable s -> pending s = Some v ->
     thr t s = Thread rest RecvPoll ->
     exists s', run (replicate 3 t) s = Some s' /\
       thr t s' = Thread rest Idle /\ a_ptr (ch s') = None /\
       trace s' = trace s ++ [EvRecv t v]) /\
  (forall (b : bool) (p q : list (@op T)) (sch : list tid),
     exists s, run sch (init b p q) = Some s /\
       sends (trace s) ≡ₚ recvs (trace s) ++ drops (trace s) ++ in_flight s).
Proof.
  split_and!.
  - intros s t v rest Hr Hp Ht.
    destruct (reachable_follow s (replicate 4 t) Hr) as (a & s' & Hs & E & Hr' & Hs').
    exists s'. split; [done |].
    rewrite (sim_pending s a Hs) in Hp.
    apply (th_rel_idle _ _ _ _ (sim_thr t s a Hs)) in Ht.
    rewrite (sim_slot_empty s' _ Hs'), (sim_trace s' _ Hs'), (sim_trace s a Hs).
    rewrite (th_rel_idle _ _ _ _ (sim_thr t s' _ Hs')).
    destruct a as [b sl ap aq atr]. simpl in *. subst sl.
    destruct t; simpl in Ht; subst; unfold astep; simpl; by rewrite ?app_nil_r.
  - intros s t rest k Hr Hp Ht.
    destruct (reachable_follow s (replicate (S k) t) Hr)
      as (a & s' & Hs & E & Hr' & Hs').
    exists s'. split; [done |].
    rewrite (sim_pending s a Hs) in Hp.
    apply (th_rel_idle _ _ _ _ (sim_thr t s a Hs)) in Ht.
    rewrite (sim_slot_empty s' _ Hs'), (sim_trace s' _ Hs'), (sim_trace s a Hs).
    rewrite (th_rel_poll _ _ _ _ (sim_thr t s' _ Hs')).
    change (arun (replicate (S k) t) a) with (arun (replicate k t) (astep t a)).
    assert (aslot (astep t a) = None /\
            athr t (astep t a) = AThread rest ARecvPoll /\
            atrace (astep t a) = atrace a) as (Hsl' & Ht' & Htr).
    { destruct a as [b sl ap aq atr]. simpl in *. subst sl.
      destruct t; simpl in Ht; subst; simpl; by rewrite app_nil_r. }
    destruct (awaiting_receive k t _ rest Hsl' Ht') as (E1 & E2 & E3).
    by rewrite E1, E2, E3, Htr.
  - intros s t rest k Hr Hp Ht.
    destruct (reachable_follow s (replicate (S k) t) Hr)
      as (a & s' & Hs & E & Hr' & Hs').
    exists s'. split; [done |].
    rewrite (sim_pending s a Hs) in Hp.
    apply (th_rel_xchg _ _ _ _ (sim_thr t s a Hs)) in Ht.
    rewrite (sim_slot_empty s' _ Hs'), (sim_trace s' _ Hs'), (sim_trace s a Hs).
    rewrite (th_rel_poll _ _ _ _ (sim_thr t s' _ Hs')).
    change (arun (replicate (S k) t) a) with (arun (replicate k t) (astep t a)).
    assert (aslot (astep t a) = None /\
            athr t (astep t a) = AThread rest ARecvPoll /\
            atrace (astep t a) = atrace a) as (Hsl' & Ht' & Htr).
    { destruct a as [b sl ap aq atr]. simpl in *. subst sl.
      destruct t; simpl in Ht; subst; simpl; by rewrite app_nil_r. }
    destruct (awaiting_receive k t _ rest Hsl' Ht') as (E1 & E2 & E3).
    by rewrite E1, E2, E3, Htr.
  - intros s t v rest Hr Hp Ht.
    destruct (reachable_follow s (replicate 3 t) Hr) as (a & s' & Hs & E & Hr' & Hs').
    exists s'. split; [done |].
    rewrite (sim_pending s a Hs) in Hp.
    apply (th_rel_poll _ _ _ _ (sim_thr t s a Hs)) in Ht.
    rewrite (sim_slot_empty s' _ Hs'), (sim_trace s' _ Hs'), (sim_trace s a Hs).
    rewrite (th_rel_idle _ _ _ _ (sim_thr t s' _ Hs')).
    destruct a as [b sl ap aq atr]. simpl in *. subst sl.
    destruct t; simpl in Ht; subst; unfold astep; simpl; by rewrite ?app_nil_r.
  - intros b p q sch. destruct (any_run b p q sch) as (s & E & Hw & Hs).
    exists s. split; [done |].
    rewrite (sim_trace s _ Hs), (sim_in_flight s _ Hs).
    apply account_inv_run, account_inv_init.
Qed.

(** C5. From any reachable state [is_object_present] answers [true] exactly
    when a value is pending; it answers [false] on a channel just
    constructed; and a [receive] that takes the pending value, followed at
    once by [is_object_present] in the same thread, yields that value and then
    [false]. *)
Theorem is_present_reports_pending :
  (forall s (t : tid) (rest : list op),
     reachable s -> thr t s = Thread (IsPresent :: rest) Idle ->
     exists s' b, step t s = Some s' /\
       trace s' = trace s ++ [EvPresent t b] /\
       (b = true <-> is_Some (pending s))) /\
  (forall (b : bool) (p q : list (@op T)),
     is_object_present (ch (init b p q)) = false) /\
  (forall s (t : tid) v (rest : list op),
     reachable s -> pending s = Some v ->
     thr t s = Thread (Receive :: IsPresent :: rest) Idle ->
     exists s', run (replicate 5 t) s = Some s' /\
       trace s' = trace s ++ [EvRecv t v; EvPresent t false] /\
       pending s' = None).
Proof.
  split_and!.
  - intros s t rest Hr Ht.
    destruct (query_step t s rest Ht) as (s' & E & _ & _ & _ & Htr).
    exists s', (is_object_present (ch s)). split_and!; try done.
    destruct (reachable_sim s Hr) as (_ & a & Hs).
    rewrite (sim_pending s a Hs). destruct Hs as (_ & _ & Hsl & _).
    unfold is_object_present, load.
    destruct (a_ptr (ch s)), (aslot a); simpl in Hsl; done.
  - done.
  - intros s t v rest Hr Hp Ht. by apply (receive_then_query s t v rest).
Qed.

(** C6. [send] has no failing path.  No run of any two programs under any
    schedule ever reaches undefined behaviour.  Run on its own, a [send] in
    overwrite mode returns after two steps with its value pending; in
    synchronous mode it returns after three steps when the slot is empty, and
    when the slot is occupied it never faults and never returns: it stays at
    its wait, sleeping once per further step, the slot untouched. *)
Theorem send_cannot_fail :
  (forall (b : bool) (p q : list (@op T)) (sch : list tid),
     exists s, run sch (init b p q) = Some s) /\
  (forall s (t : tid) v (rest : list op),
     reachable s -> sync (ch s) = false ->
     thr t s = Thread (Send v :: rest) Idle ->
     exists s', run (replicate 2 t) s = Some s' /\
       thr t s' = Thread rest Idle /\ pending s' = Some v /\
       sends (trace s') = sends (trace s) ++ [v]) /\
  (forall s (t : tid) v (rest : list op),
     reachable s -> sync (ch s) = true -> pending s = None ->
     thr t s = Thread (Send v :: rest) Idle ->
     exists s', run (replicate 3 t) s = Some s' /\
       thr t s' = Thread rest Idle /\ pending s' = Some v /\
       trace s' = trace s ++ [EvSend t v]) /\
  (forall s (t : tid) v w (rest : list op) (k : nat),
     reachable s -> sync (ch s) = true -> pending s = Some w ->
     thr t s = Thread (Send v :: rest) Idle ->
     exists s' l, run (replicate (S k) t) s = Some s' /\
       thr t s' = Thread rest (SendWait v l) /\ pending s' = Some w /\
       trace s' = trace s ++ replicate k (EvSleep t)).
Proof.
  split_and!.
  - intros b p q sch. destruct (any_run b p q sch) as (s & E & _). eauto.
  - intros s t v rest Hr Hb Ht.
    destruct (reachable_follow s (replicate 2 t) Hr) as (a & s' & Hs & E & Hr' & Hs').
    exists s'. split; [done |].
    rewrite (sim_sync s a Hs) in Hb.
    apply (th_rel_idle _ _ _ _ (sim_thr t s a Hs)) in Ht.
    rewrite (sim_pending s' _ Hs'), (sim_trace s' _ Hs'), (sim_trace s a Hs).
    rewrite (th_rel_idle _ _ _ _ (sim_thr t s' _ Hs')).
    destruct a as [b sl ap aq atr]. simpl in *. subst b.
    destruct t, sl; simpl in Ht; subst; unfold astep; simpl; trace_norm; done.
  - intros s t v rest Hr Hb Hp Ht.
    destruct (reachable_follow s (replicate 3 t) Hr) as (a & s' & Hs & E & Hr' & Hs').
    exists s'. split; [done |].
    rewrite (sim_sync s a Hs) in Hb. rewrite (sim_pending s a Hs) in Hp.
    apply (th_rel_idle _ _ _ _ (sim_thr t s a Hs)) in Ht.
    rewrite (sim_pending s' _ Hs'), (sim_trace s' _ Hs'), (sim_trace s a Hs).
    rewrite (th_rel_idle _ _ _ _ (sim_thr t s' _ Hs')).
    destruct a as [b sl ap aq atr]. simpl in *. subst b sl.
    destruct t; simpl in Ht; subst; unfold astep; simpl;
      by rewrite ?app_nil_r.
  - intros s t v w rest k Hr Hb Hp Ht.
    destruct (reachable_follow s (replicate (S k) t) Hr)
      as (a & s' & Hs & E & Hr' & Hs').
    rewrite (sim_sync s a Hs) in Hb. rewrite (sim_pending s a Hs) in Hp.
    apply (th_rel_idle _ _ _ _ (sim_thr t s a Hs)) in Ht.
    assert (aslot (arun (replicate (S k) t) a) = Some w /\
            athr t (arun (replicate (S k) t) a) = AThread rest (ASendWait v) /\
            atrace (arun (replicate (S k) t) a)
              = atrace a ++ replicate k (EvSleep t)) as (E1 & E2 & E3).
    { change (arun (replicate (S k) t) a)
        with (arun (replicate k t) (astep t a)).
      assert (async (astep t a) = true /\ aslot (astep t a) = Some w /\
              athr t (astep t a) = AThread rest (ASendWait v) /\
              atrace (astep t a) = atrace a) as (Hb' & Hsl' & Ht' & Htr).
      { destruct a as [b sl ap aq atr]. simpl in *. subst b sl.
        destruct t; simpl in Ht; subst; simpl; by rewrite app_nil_r. }
      destruct (ablocked_send k t _ v w rest Hb' Hsl' Ht') as (E1 & E2 & E3).
      by rewrite E1, E2, E3, Htr. }
    apply (th_rel_wait _ _ _ _ _ (sim_thr t s' _ Hs')) in E2 as [l E2].
    exists s', l. split; [done |].
    by rewrite (sim_pending s' _ Hs'), (sim_trace s' _ Hs'), (sim_trace s a Hs).
Qed.

(** C7. A [receive] is called on an empty slot while the producer has one
    [send v] to do.  Once that send has returned, as soon as the consumer has
    been scheduled four more times the receive has returned [v]; the consumer
    slept only before the value was inserted and not once after it: the record
    of the run is the earlier record, some sleeps of the consumer, the send,
    the receive, and whatever the consumer did next. *)
Theorem receive_after_send_bounded s0 (v : T) (rest : list op)
    (sch1 sch2 : list tid) s1 :
  reachable s0 -> pending s0 = None ->
  producer s0 = Thread [Send v] Idle ->
  consumer s0 = Thread (Receive :: rest) Idle ->
  run sch1 s0 = Some s1 ->
  finished (producer s1) ->
  4 <= count_steps Consumer sch2 ->
  exists s2 n tr3,
    run sch2 s1 = Some s2 /\
    trace s2 = trace s0 ++ replicate n (EvSleep Consumer)
               ++ [EvSend Producer v; EvRecv Consumer v] ++ tr3.
Proof.
  intros Hr Hp Hprod Hcons E1 Hfin Hcnt.
  destruct (reachable_follow s0 sch1 Hr) as (a0 & s1' & Hs0 & E1' & Hr1 & Hs1).
  rewrite E1 in E1'. injection E1' as <-.
  destruct (reachable_follow s1 sch2 Hr1) as (a1 & s2 & _ & E2 & Hr2 & _).
  destruct (reachable_sim s1 Hr1) as [Hw1 _].
  destruct (sim_run sch2 s1 _ Hw1 Hs1) as (s2' & E2' & _ & Hs2).
  rewrite E2 in E2'. injection E2' as <-. clear a1.
  assert (before_insert v rest (trace s0) a0) as Hb.
  { rewrite (sim_pending s0 a0 Hs0) in Hp.
    apply (th_rel_idle _ _ _ _ (sim_thr Producer s0 a0 Hs0)) in Hprod.
    apply (th_rel_idle _ _ _ _ (sim_thr Consumer s0 a0 Hs0)) in Hcons.
    simpl in *. split_and!; eauto.
    exists 0. by rewrite (sim_trace s0 a0 Hs0), app_nil_r. }
  assert (exists k, k <= 4 /\ after_insert v rest (trace s0) k (arun sch1 a0))
    as (k & Hk & Ha).
  { destruct (before_insert_run v rest (trace s0) sch1 a0 Hb)
      as [(_ & _ & Hp1 & _) | H]; [| done].
    apply (th_rel_finished _ _ _ (sim_thr Producer s1 _ Hs1)) in Hfin.
    destruct Hfin as [Hpc Htd]. simpl in *.
    destruct Hp1 as [E | [E | E]]; rewrite E in *; done. }
  pose proof (after_insert_run v rest (trace s0) sch2 k _ Hk Ha) as Ha2.
  replace (k - count_steps Consumer sch2) with 0 in Ha2 by lia.
  destruct Ha2 as (_ & n & tr3 & Htr).
  exists s2, n, tr3. split; [done |]. by rewrite (sim_trace s2 _ Hs2).
Qed.

(** C10. [is_object_present] changes nothing: the mode flag, the pointer in
    the slot, the heap and so the pending value are the same after the call;
    only its answer is added to the record of the run. *)
Theorem is_object_present_frame (t : tid) s (rest : list op) :
  thr t s = Thread (IsPresent :: rest) Idle ->
  exists s', step t s = Some s' /\
    sync (ch s') = sync (ch s) /\ a_ptr (ch s') = a_ptr (ch s) /\
    mem s' = mem s /\ pending s' = pending s /\
    trace s' = trace s ++ [EvPresent t (is_object_present (ch s))].
Proof.
  intros Ht. destruct (query_step t s rest Ht) as (s' & E & Hc & Hm & _ & Htr).
  exists s'. unfold pending. rewrite Hc, Hm. done.
Qed.

End sim_facts.

(** C2. In overwrite mode, from any reachable state in which the producer
    is about to send [x] and then [y] and the consumer has not begun its
    [receive]: after both sends [y] is pending and the cell of [x] has been
    deleted by the second send; the [receive] that follows returns [y], and
    [is_object_present] right after it answers [false].  In particular
    [send(1); send(2); send(3); receive(); is_object_present()] on a fresh
    overwrite channel yields 3 and then [false], 1 and 2 being deleted. *)
Theorem overwrite_keeps_last :
  (forall (T : Type) (s : @sys T) (x y : T) (pr cr : list op),
     reachable s -> sync (ch s) = false ->
     producer s = Thread (Send x :: Send y :: pr) Idle ->
     consumer s = Thread (Receive :: IsPresent :: cr) Idle ->
     exists s1 s2,
       run (replicate 4 Producer) s = Some s1 /\
       pending s1 = Some y /\
       trace s1 = trace s
                  ++ match pending s with
                     | Some o => [EvDrop Producer o]
                     | None => []
                     end
                  ++ [EvSend Producer x; EvDrop Producer x; EvSend Producer y] /\
       run (replicate 5 Consumer) s1 = Some s2 /\
       trace s2 = trace s1 ++ [EvRecv Consumer y; EvPresent Consumer false] /\
       pending s2 = None) /\
  (exists s : @sys Z,
     run (replicate 6 Producer ++ replicate 5 Consumer)
         (init false [Send 1%Z; Send 2%Z; Send 3%Z] [Receive; IsPresent])
     = Some s /\
     trace s = [EvSend Producer 1%Z; EvDrop Producer 1%Z;
                EvSend Producer 2%Z; EvDrop Producer 2%Z;
                EvSend Producer 3%Z;
                EvRecv Consumer 3%Z; EvPresent Consumer false]).
Proof.
  split.
  - intros T s x y pr cr Hr Hb Hp Hc.
    destruct (overwrite_two_sends s x y pr Hr Hb Hp)
      as (s1 & E1 & Hr1 & Hp1 & _ & Hc1 & Htr1).
    rewrite Hc in Hc1.
    destruct (receive_then_query s1 Consumer y cr Hr1 Hp1 Hc1)
      as (s2 & E2 & Htr2 & Hp2).
    exists s1, s2. split_and!; done.
  - eexists. split; [vm_compute; reflexivity | reflexivity].
Qed.

(** The single-sender discipline is needed: two threads that both send in
    synchronous mode can each find the slot empty, and the second exchange
    then deletes the value of the first. *)
Example two_senders_overwrite :
  exists s : @sys Z,
    run [Producer; Consumer; Producer; Consumer; Producer; Consumer]
        (init true [Send 1%Z] [Send 2%Z]) = Some s /\
    drops (trace s) = [1%Z] /\ pending s = Some 2%Z.
Proof. eexists. split; [vm_compute; reflexivity | split; reflexivity]. Qed.

(** *** The theorems at sample inputs *)

Lemma sync_delivers_in_order_witness :
  spsc [Send 42%Z] [@Receive Z] /\
  exists s, run [Consumer; Producer; Consumer; Producer; Producer; Consumer]
                (init true [Send 42%Z] [Receive]) = Some s /\
       drops (trace s) = [] /\
       sends (trace s) = recvs (trace s) ++ in_flight s /\
       sends (trace s) ++ unsent (producer s) = send_values [Send 42%Z] /\
       (finished (producer s) -> in_flight s = [] ->
        recvs (trace s) = send_values [Send 42%Z]).
Proof.
  split; [split; reflexivity |].
  apply (proj1 sync_delivers_in_order); split; reflexivity.
Defined.

Lemma overwrite_keeps_last_witness :
  reachable (init false [Send 1%Z; Send 2%Z] [Receive; IsPresent]) /\
  sync (ch (init false [Send 1%Z; Send 2%Z] [Receive; IsPresent])) = false /\
  producer (init false [Send 1%Z; Send 2%Z] [Receive; IsPresent])
    = Thread (Send 1%Z :: Send 2%Z :: []) Idle /\
  consumer (init false [Send 1%Z; Send 2%Z] [Receive; IsPresent])
    = Thread (Receive :: IsPresent :: []) Idle /\
  exists s1 s2,
    run (replicate 4 Producer)
        (init false [Send 1%Z; Send 2%Z] [Receive; IsPresent]) = Some s1 /\
    pending s1 = Some 2%Z /\
    trace s1 = [] ++ [] ++ [EvSend Producer 1%Z; EvDrop Producer 1%Z;
                            EvSend Producer 2%Z] /\
    run (replicate 5 Consumer) s1 = Some s2 /\
    trace s2 = trace s1 ++ [EvRecv Consumer 2%Z; EvPresent Consumer false] /\
    pending s2 = None.
Proof.
  split; [(do 3 eexists; exists []; reflexivity) |]. do 3 (split; [reflexivity |]).
  apply (proj1 overwrite_keeps_last Z
           (init false [Send 1%Z; Send 2%Z] [Receive; IsPresent])
           1%Z 2%Z [] []);
    [(do 3 eexists; exists []; reflexivity) | reflexivity | reflexivity | reflexivity].
Defined.

Lemma slot_holds_at_most_one_witness :
  no_send [@Receive Z; IsPresent; Receive] = true /\
  exists s, run [Producer; Consumer; Producer; Producer; Producer; Consumer;
                 Producer; Consumer; Consumer; Producer]
                (init true [Send 1%Z; Send 2%Z] [Receive; IsPresent; Receive])
            = Some s /\
    (forall v l, pc (producer s) = SendXchg v l -> pending s = None) /\
    drops (trace s) = [] /\
    sends (trace s) ≡ₚ recvs (trace s) ++ in_flight s.
Proof.
  split; [reflexivity |].
  apply (proj2 slot_holds_at_most_one); reflexivity.
Defined.

Lemma receive_returns_value_witness :
  reachable raced_state /\ pending raced_state = None /\
  thr Consumer raced_state = Thread [] RecvXchg /\
  exists s', run (replicate 3 Consumer) raced_state = Some s' /\
    thr Consumer s' = Thread [] RecvPoll /\ a_ptr (ch s') = None /\
    trace s' = trace raced_state ++ replicate 2 (EvSleep Consumer).
Proof.
  assert (reachable raced_state) as Hr.
  { exists false, [Send 1%Z; Receive], [Receive],
      [Producer; Producer; Producer; Consumer; Producer; Consumer; Producer].
    reflexivity. }
  split; [exact Hr |]. split; [reflexivity |]. split; [reflexivity |].
  apply (proj1 (proj2 (proj2 receive_returns_value)) raced_state Consumer [] 2);
    [exact Hr | reflexivity | reflexivity].
Defined.

Lemma is_present_reports_pending_witness :
  reachable c5_state /\ pending c5_state = Some 5%Z /\
  thr Consumer c5_state = Thread (Receive :: IsPresent :: []) Idle /\
  exists s', run (replicate 5 Consumer) c5_state = Some s' /\
    trace s' = trace c5_state ++ [EvRecv Consumer 5%Z; EvPresent Consumer false] /\
    pending s' = None.
Proof.
  assert (reachable c5_state) as Hr.
  { exists false, [Send 5%Z], [Receive; IsPresent], [Producer; Producer].
    reflexivity. }
  split; [exact Hr |]. split; [reflexivity |]. split; [reflexivity |].
  apply (proj2 (proj2 is_present_reports_pending) c5_state Consumer 5%Z []);
    [exact Hr | reflexivity | reflexivity].
Defined.

Lemma send_cannot_fail_witness :
  reachable (init false [Send 1%Z] []) /\
  sync (ch (init false [Send 1%Z] [])) = false /\
  thr Producer (init false [Send 1%Z] []) = Thread (Send 1%Z :: []) Idle /\
  exists s', run (replicate 2 Producer) (init false [Send 1%Z] []) = Some s' /\
    thr Producer s' = Thread [] Idle /\ pending s' = Some 1%Z /\
    sends (trace s') = sends (trace (init false [Send 1%Z] [])) ++ [1%Z].
Proof.
  split; [(do 3 eexists; exists []; reflexivity) |]. split; [reflexivity |].
  split; [reflexivity |].
  apply (proj1 (proj2 send_cannot_fail) (init false [Send 1%Z] []) Producer 1%Z []);
    [(do 3 eexists; exists []; reflexivity) | reflexivity | reflexivity].
Defined.

Lemma receive_after_send_bounded_witness :
  reachable (init true [Send 42%Z] [Receive]) /\
  pending (init true [Send 42%Z] [Receive]) = None /\
  producer (init true [Send 42%Z] [Receive]) = Thread [Send 42%Z] Idle /\
  consumer (init true [Send 42%Z] [Receive]) = Thread (Receive :: []) Idle /\
  run [Consumer; Consumer; Producer; Producer; Producer]
      (init true [Send 42%Z] [Receive]) = Some sent_state /\
  finished (producer sent_state) /\
  4 <= count_steps Consumer [Consumer; Producer; Consumer; Consumer; Consumer] /\
  exists s2 n tr3,
    run [Consumer; Producer; Consumer; Consumer; Consumer] sent_state
      = Some s2 /\
    trace s2 = trace (init true [Send 42%Z] [Receive])
               ++ replicate n (EvSleep Consumer)
               ++ [EvSend Producer 42%Z; EvRecv Consumer 42%Z] ++ tr3.
Proof.
  split; [(do 3 eexists; exists []; reflexivity) |].
  do 4 (split; [reflexivity |]).
  split; [split; reflexivity |].
  split; [vm_compute; lia |].
  apply (receive_after_send_bounded (init true [Send 42%Z] [Receive]) 42%Z []
           [Consumer; Consumer; Producer; Producer; Producer]
           [Consumer; Producer; Consumer; Consumer; Consumer] sent_state).
  - do 3 eexists; exists []; reflexivity.
  - reflexivity.
  - reflexivity.
  - reflexivity.
  - reflexivity.
  - split; reflexivity.
  - vm_compute; lia.
Defined.

Lemma is_object_present_frame_witness :
  thr Consumer (init true [Send 7%Z] [IsPresent; Receive])
    = Thread (IsPresent :: [Receive]) Idle /\
  exists s', step Consumer (init true [Send 7%Z] [IsPresent; Receive]) = Some s' /\
    sync (ch s') = true /\ a_ptr (ch s') = None /\
    mem s' = [] /\ pending s' = None /\
    trace s' = [EvPresent Consumer false].
Proof.
  split; [reflexivity |].
  exact (is_object_present_frame Consumer
           (init true [Send 7%Z] [IsPresent; Receive]) [Receive] eq_refl).
Defined.

End SlotFacts.

(** ** Facts about the class-name loader *)

Module NamesFacts.
Import Names.
Local Open Scope string_scope.

Lemma no_newline_cons c l :
  no_newline (String c l) <-> Ascii.eqb c newline = false /\ no_newline l.
Proof.
  unfold no_newline; simpl. rewrite andb_true_iff, negb_true_iff. tauto.
Qed.

Lemma extract_line l r :
  no_newline l -> extract (l ++ String newline r) = (l, r, false).
Proof.
  induction l as [| c l IH]; simpl; intros H.
  - done.
  - apply no_newline_cons in H as [Hc Hl]. by rewrite Hc, (IH Hl).
Qed.

Lemma extract_last l : no_newline l -> extract l = (l, "", true).
Proof.
  induction l as [| c l IH]; simpl; intros H; [done |].
  apply no_newline_cons in H as [Hc Hl]. by rewrite Hc, (IH Hl).
Qed.

Lemma append_assoc (a b c : string) : (a ++ b) ++ c = a ++ (b ++ c).
Proof. induction a as [| x a IH]; simpl; congruence. Qed.

Lemma length_append (a b : string) :
  String.length (a ++ b) = String.length a + String.length b.
Proof. induction a as [| x a IH]; simpl; congruence. Qed.

Lemma read_lines_terminated ls last fuel line0 (acc : list string) :
  Forall no_newline ls -> no_newline last ->
  String.length (terminated ls ++ last) < fuel ->
  read_lines fuel (Stream true (terminated ls ++ last) false false) line0 acc
  = Some (acc ++ ls ++ last_entry last)%list.
Proof.
  revert fuel line0 acc. induction ls as [| l ls IH]; intros fuel line0 acc Hls Hl Hf.
  - simpl in *. destruct fuel as [| fuel]; [lia |].
    destruct last as [| c r].
    + simpl. by rewrite app_nil_r.
    + cbn [read_lines getline eofbit failbit orb buf is_open].
      rewrite (extract_last _ Hl). cbn [failbit].
      destruct fuel as [| fuel]; [simpl in Hf; lia |]. done.
  - apply Forall_cons in Hls as [Hl1 Hls].
    destruct fuel as [| fuel]; [lia |].
    cbn [terminated] in *. rewrite append_assoc in *. cbn [append] in *.
    cbn [read_lines getline eofbit failbit orb buf is_open].
    rewrite (extract_line _ _ Hl1).
    assert ((match l ++ String newline (terminated ls ++ last) with
             | "" => true | String _ _ => false end) = false) as ->.
    { by destruct l. }
    cbn [failbit]. rewrite (IH fuel l (acc ++ [l])%list Hls Hl).
    + by rewrite <- app_assoc.
    + rewrite length_append in Hf. simpl in Hf. lia.
Qed.

Lemma content_shape (content : string) :
  exists ls last, Forall no_newline ls /\ no_newline last /\
                  content = terminated ls ++ last.
Proof.
  induction content as [| c r (ls & last & Hls & Hl & ->)].
  - by exists [], "".
  - destruct (Ascii.eqb c newline) eqn:E.
    + apply Ascii.eqb_eq in E as ->.
      exists ("" :: ls), last. split_and!; [by constructor | done | done].
    + destruct ls as [| l ls].
      * exists [], (String c last). split_and!; [done | | done].
        by apply no_newline_cons.
      * apply Forall_cons in Hls as [Hl1 Hls].
        exists (String c l :: ls), last. split_and!; [| done | done].
        constructor; [by apply no_newline_cons | done].
Qed.

(** C8. [objects_names_from_file] returns the empty vector when the file
    cannot be opened.  When it can, and its contents are the lines [ls], each
    followed by a newline, and then [last] with no newline after it, the
    vector is [ls] in order, followed by [last] when [last] is not empty.
    Every file that can be opened has contents of that shape, so the loop
    always ends with one entry per line. *)
Theorem objects_names_from_file_lines (fs : string -> option string)
    (filename : string) :
  (fs filename = None -> objects_names_from_file fs filename = Some ([], "")) /\
  (forall (ls : list string) (last : string),
     Forall no_newline ls -> no_newline last ->
     fs filename = Some (terminated ls ++ last) ->
     objects_names_from_file fs filename
     = Some ((ls ++ last_entry last)%list, loaded_message)) /\
  (forall content, fs filename = Some content ->
     exists ls last, Forall no_newline ls /\ no_newline last /\
                     content = terminated ls ++ last /\
                     objects_names_from_file fs filename
                     = Some ((ls ++ last_entry last)%list, loaded_message)).
Proof.
  assert (forall (ls : list string) (last : string),
            Forall no_newline ls -> no_newline last ->
            fs filename = Some (terminated ls ++ last) ->
            objects_names_from_file fs filename
            = Some ((ls ++ last_entry last)%list, loaded_message)) as Hlines.
  { intros ls last Hls Hl E. unfold objects_names_from_file, open_file.
    rewrite E. cbn [is_open negb buf].
    rewrite (read_lines_terminated ls last _ "" [] Hls Hl); [done | lia]. }
  split_and!.
  - unfold objects_names_from_file, open_file. by intros ->.
  - exact Hlines.
  - intros content E.
    destruct (content_shape content) as (ls & last & Hls & Hl & ->).
    exists ls, last. split_and!; try done. by apply Hlines.
Qed.

Lemma objects_names_from_file_lines_witness :
  Forall no_newline ["person"; "bicycle"] /\ no_newline "car" /\
  (fun _ : string => Some (terminated ["person"; "bicycle"] ++ "car")) "coco.names"
    = Some (terminated ["person"; "bicycle"] ++ "car") /\
  objects_names_from_file
    (fun _ => Some (terminated ["person"; "bicycle"] ++ "car")) "coco.names"
  = Some ((["person"; "bicycle"] ++ last_entry "car")%list, loaded_message).
Proof.
  assert (Forall no_newline ["person"; "bicycle"]) as H1
    by (repeat constructor).
  assert (no_newline "car") as H2 by reflexivity.
  split; [exact H1 |]. split; [exact H2 |]. split; [reflexivity |].
  exact (proj1 (proj2 (objects_names_from_file_lines
                         (fun _ => Some (terminated ["person"; "bicycle"] ++ "car"))
                         "coco.names"))
               ["person"; "bicycle"] "car" H1 H2 eq_refl).
Defined.

End NamesFacts.

(** ** Facts about the printers *)

Module ConsoleFacts.
Import Console ConsoleMore.
Local Open Scope string_scope.

Section console_facts.
Variable F : Type.
Variable isnan : F -> bool.
Variable show_prec3 : F -> string.
Variable show_fixed2 : F -> string.
Variable obj_id_to_color : Z -> color.
Variable text_width : string -> Z -> Z -> Z.

Lemma in_range_spec (obj_names : list string) (i : bbox_t F) :
  in_range F obj_names i = true <-> (N.to_nat (obj_id F i) < length obj_names)%nat.
Proof. unfold in_range. rewrite N.ltb_lt. lia. Qed.

Lemma in_range_index (obj_names : list string) (i : bbox_t F) :
  in_range F obj_names i = true ->
  exists name, index obj_names (obj_id F i) = Some name.
Proof.
  intros H. apply in_range_spec in H. unfold index.
  by apply lookup_lt_is_Some_2 in H as [name ->]; eauto.
Qed.

Lemma console_line_defined (obj_names : list string) (i : bbox_t F) :
  is_Some (console_line F show_prec3 obj_names i).
Proof.
  unfold console_line. destruct (in_range F obj_names i) eqn:E; [| done].
  destruct (in_range_index _ _ E) as [name ->]. done.
Qed.

Lemma draw_box_defined cols rows (obj_names : list string) (i : bbox_t F) :
  is_Some (draw_box F isnan show_fixed2 obj_id_to_color text_width
                    cols rows obj_names i).
Proof.
  unfold draw_box. destruct (in_range F obj_names i) eqn:E; [| done].
  destruct (in_range_index _ _ E) as [name ->]. done.
Qed.

(** The name a detection is shown with, if any. *)
Lemma console_line_lookup (obj_names : list string) (i : bbox_t F) :
  console_line F show_prec3 obj_names i
  = Some (match obj_names !! N.to_nat (obj_id F i) with
          | Some name => name ++ " - " ++ details F show_prec3 i
          | None => details F show_prec3 i
          end).
Proof.
  unfold console_line, index.
  destruct (in_range F obj_names i) eqn:E.
  - destruct (in_range_index _ _ E) as [name Hn]. unfold index in Hn.
    by rewrite Hn.
  - apply not_true_iff_false in E. rewrite in_range_spec in E.
    rewrite (lookup_ge_None_2 obj_names); [done | lia].
Qed.

Lemma draw_box_lookup cols rows (obj_names : list string) (i : bbox_t F) :
  draw_box F isnan show_fixed2 obj_id_to_color text_width cols rows obj_names i
  = Some (outline F obj_id_to_color i ::
          match obj_names !! N.to_nat (obj_id F i) with
          | Some name =>
              draw_label F isnan show_fixed2 text_width cols rows i
                (obj_id_to_color (i32 (Z.of_N (obj_id F i)))) name
          | None => []
          end).
Proof.
  unfold draw_box, index, outline.
  destruct (in_range F obj_names i) eqn:E.
  - destruct (in_range_index _ _ E) as [name Hn]. unfold index in Hn.
    by rewrite Hn.
  - apply not_true_iff_false in E. rewrite in_range_spec in E.
    rewrite (lookup_ge_None_2 obj_names); [done | lia].
Qed.

(** The lines of a whole vector, detection by detection. *)
Lemma console_lines_closed (result_vec : list (bbox_t F))
    (obj_names : list string) :
  console_lines F show_prec3 result_vec obj_names
  = Some (foldr (fun i out =>
                   match obj_names !! N.to_nat (obj_id F i) with
                   | Some name =>
                       (name ++ " - " ++ details F show_prec3 i) ++ out
                   | None => details F show_prec3 i ++ out
                   end) "" result_vec).
Proof.
  induction result_vec as [| i rest IH]; simpl; [done |].
  rewrite console_line_lookup, IH. by destruct (obj_names !! _).
Qed.

(** The drawing of a whole vector, detection by detection. *)
Lemma draw_all_closed cols rows (result_vec : list (bbox_t F))
    (obj_names : list string) :
  draw_all F isnan show_fixed2 obj_id_to_color text_width
           cols rows result_vec obj_names
  = Some (flat_map (fun i =>
            match obj_names !! N.to_nat (obj_id F i) with
            | Some name =>
                outline F obj_id_to_color i ::
                draw_label F isnan show_fixed2 text_width cols rows i
                  (obj_id_to_color (i32 (Z.of_N (obj_id F i)))) name
            | None => [outline F obj_id_to_color i]
            end) result_vec).
Proof.
  induction result_vec as [| i rest IH]; simpl; [done |].
  rewrite draw_box_lookup, IH. by destruct (obj_names !! _).
Qed.

(** C9. Neither [show_console_result] nor [draw_boxes] ever reads
    [obj_names] out of range, whatever the detections and the names: both
    are defined on every input, and what they produce is fixed detection by
    detection.  [show_console_result] prints the newline and then, for each
    detection in order, the name at index [obj_id] followed by [" - "] and
    the details when there is a name at that index, and the details alone
    when there is none.  [draw_boxes] draws, for each detection in order, its
    outline followed by its label when there is a name at that index, and its
    outline alone when there is none; the frame-rate text follows when both
    rates are given.  There is no name at index [obj_id] exactly when
    [obj_names.size() <= obj_id]. *)
Theorem names_indexed_in_range (cols rows : Z) (result_vec : list (bbox_t F))
    (obj_names : list string)
    (frame_id current_det_fps current_cap_fps : Z) :
  show_console_result F show_prec3 result_vec obj_names frame_id
  = Some (endl ++
          foldr (fun i out =>
                   match obj_names !! N.to_nat (obj_id F i) with
                   | Some name =>
                       (name ++ " - " ++ details F show_prec3 i) ++ out
                   | None => details F show_prec3 i ++ out
                   end) "" result_vec) /\
  draw_boxes F isnan show_fixed2 obj_id_to_color text_width
             cols rows result_vec obj_names current_det_fps current_cap_fps
  = Some (flat_map (fun i =>
            match obj_names !! N.to_nat (obj_id F i) with
            | Some name =>
                outline F obj_id_to_color i ::
                draw_label F isnan show_fixed2 text_width cols rows i
                  (obj_id_to_color (i32 (Z.of_N (obj_id F i)))) name
            | None => [outline F obj_id_to_color i]
            end) result_vec
          ++ (if (0 <=? current_det_fps)%Z && (0 <=? current_cap_fps)%Z
              then [PutText ("FPS detection: " ++ show_int current_det_fps
                             ++ "   FPS capture: "
                             ++ show_int current_cap_fps)
                            10 20 12 (50, 255, 0)%Z 2]
              else []))%list /\
  (forall i : bbox_t F,
     obj_names !! N.to_nat (obj_id F i) = None
     <-> (N.of_nat (length obj_names) <= obj_id F i)%N).
Proof.
  split_and!.
  - unfold show_console_result. by rewrite console_lines_closed.
  - unfold draw_boxes. by rewrite draw_all_closed.
  - intros i. rewrite lookup_ge_None. lia.
Qed.

End console_facts.

End ConsoleFacts.

(** ** Further facts about the slot channel *)

Module SlotMoreFacts.
Import Slot SlotFacts SlotMore.
Section more_facts.
Context {T : Type}.
Implicit Types (s : @sys T) (a : @asys T) (tr : list (@event T)).

Ltac tr_norm :=
  simpl; rewrite ?sends_app, ?drops_app, ?recvs_app; simpl;
  rewrite ?app_nil_r in *; simpl.

Lemma inv_run (I : @asys T -> Prop) :
  (forall t a, I a -> I (astep t a)) ->
  forall sch a, I a -> I (arun sch a).
Proof.
  intros Hstep sch. induction sch as [| t sch IH]; intros a H; simpl; [done |].
  apply IH, Hstep, H.
Qed.

(** The live cells are exactly the cells in use. *)
Lemma live_locs_owned s : wf s -> live_locs (mem s) ≡ₚ owned s.
Proof.
  intros [Hnd Hlive]. apply NoDup_Permutation; [| done |].
  - unfold live_locs. apply NoDup_filter, NoDup_seq.
  - intros l. rewrite Hlive. unfold live_locs.
    rewrite list_elem_of_filter, elem_of_seq. split; [tauto |].
    intros H. split; [done |]. destruct H as [w Hw].
    apply deref_Some in Hw. apply lookup_lt_Some in Hw. lia.
Qed.

(** X1. The heap of the channel stays small: whatever two threads do with
    it and in whatever order, no run faults, at most three cells are
    allocated at any time (the pending one and one per thread inside a call),
    and when both threads are outside any call exactly the cell [a_ptr]
    points to is allocated: every other cell has been deleted, and the cell
    of a pending value is still allocated. *)
Theorem heap_stays_small (b : bool) (p q : list (@op T)) (sch : list tid) :
  exists s, run sch (init b p q) = Some s /\
    length (live_locs (mem s)) <= 3 /\
    (pc (producer s) = Idle -> pc (consumer s) = Idle ->
     live_locs (mem s) = option_list (a_ptr (ch s))).
Proof.
  destruct (any_run b p q sch) as (s & E & Hw & _).
  exists s. split; [done |].
  pose proof (live_locs_owned s Hw) as Hperm. split.
  - rewrite Hperm. unfold owned, th_locs. rewrite !length_app.
    destruct (a_ptr (ch s)), (pc (producer s)), (pc (consumer s)); simpl; lia.
  - intros Hp Hq. unfold owned, th_locs in Hperm. rewrite Hp, Hq in Hperm.
    simpl in Hperm. rewrite app_nil_r in Hperm.
    destruct (a_ptr (ch s)); simpl in *.
    + by apply Permutation_singleton_r.
    + by apply Permutation_nil_r.
Qed.

Ltac not_in_trace :=
  rewrite ?app_nil_r; try done;
  rewrite list_elem_of_In in *; rewrite in_app_iff; simpl;
  let H := fresh in
  intros [? | H]; [done |];
  repeat (destruct H as [H | H]; [discriminate H |]); destruct H.

Lemma never_waits_step t a : never_waits_inv a -> never_waits_inv (astep t a).
Proof.
  destruct a as [b sl [ptd ppt] [ctd cpt] tr].
  unfold never_waits_inv, astep, astep_thread; simpl.
  intros (-> & Hpt & Hpp & Hns). destruct t.
  - destruct Hpp as [-> | [v ->]]; simpl.
    + destruct ptd as [| [v | |] ptd]; simpl in *; try done;
        (split_and!; [done | done | eauto | ]).
      all: not_in_trace.
    + destruct sl; simpl; (split_and!; [done | done | eauto | not_in_trace]).
  - destruct cpt; simpl.
    + destruct ctd as [| [v | |] ctd]; simpl;
        (split_and!; [done | done | eauto | not_in_trace]).
    + destruct sl; simpl; (split_and!; [done | done | eauto | not_in_trace]).
    + destruct sl; simpl; (split_and!; [done | done | eauto | not_in_trace]).
    + destruct sl; simpl; (split_and!; [done | done | eauto | not_in_trace]).
    + destruct sl; simpl; (split_and!; [done | done | eauto | not_in_trace]).
    + split_and!; [done | done | eauto | not_in_trace].
Qed.

(** X2. In overwrite mode a thread that only sends never sleeps, whatever
    the other thread does and however the two interleave. *)
Theorem overwrite_sender_never_sleeps (p q : list (@op T)) (sch : list tid) :
  no_receive p = true ->
  exists s, run sch (init false p q) = Some s /\ EvSleep Producer ∉ trace s.
Proof.
  intros Hp. destruct (any_run false p q sch) as (s & E & _ & Hs).
  exists s. split; [done |]. rewrite (sim_trace s _ Hs).
  assert (never_waits_inv (arun sch (ainit false p q))) as (_ & _ & _ & H);
    [| done].
  apply (inv_run never_waits_inv never_waits_step).
  unfold never_waits_inv; simpl. split_and!; eauto. set_solver.
Qed.

Lemma subseq_step t a : subseq_inv a -> subseq_inv (astep t a).
Proof.
  intros [Hi Hsub]. split; [by apply spsc_inv_step |].
  destruct a as [b sl [ptd ppt] [ctd cpt] tr].
  destruct Hi as (Hpp & Hpt & Hcp & Hct & Hcx).
  unfold astep, astep_thread, ain_hand in *; simpl in *. destruct t.
  - destruct ppt; try done; simpl.
    + destruct ptd as [| [v | |] ptd]; tr_norm; done.
    + destruct sl; tr_norm; done.
    + destruct sl as [w |]; tr_norm.
      * rewrite !app_assoc. apply sublist_app; [| done].
        etrans; [| exact Hsub]. rewrite !app_assoc. by apply sublist_inserts_r.
      * rewrite !app_assoc. by apply sublist_app.
  - destruct cpt; try done; simpl.
    + destruct ctd as [| [v | |] ctd]; tr_norm; done.
    + destruct sl; tr_norm; done.
    + destruct sl; tr_norm; done.
    + tr_norm. by rewrite <- app_assoc.
Qed.

(** X3. With one sender and one receiver, in either mode, the values
    received so far followed by those in flight are a subsequence of the
    values sent so far: order is kept and nothing is delivered twice, even
    when overwrite mode skips values. *)
Theorem received_is_subsequence_of_sent (b : bool) (p q : list (@op T))
    (sch : list tid) :
  spsc p q ->
  exists s, run sch (init b p q) = Some s /\
    sublist (recvs (trace s) ++ in_flight s) (sends (trace s)).
Proof.
  intros H. destruct (any_run b p q sch) as (s & E & _ & Hs).
  exists s. split; [done |].
  rewrite (sim_trace s _ Hs), (sim_in_flight s _ Hs).
  assert (subseq_inv (arun sch (ainit b p q))) as [Hi Hsub].
  { apply (inv_run subseq_inv subseq_step). split; [by apply spsc_inv_init |].
    simpl. constructor. }
  destruct Hi as (Hpp & _). unfold ain_hand at 1.
  by destruct (apc (aprod _)).
Qed.

Lemma latest_step t a : latest_inv a -> latest_inv (astep t a).
Proof.
  destruct a as [b sl [ptd ppt] [ctd cpt] tr].
  unfold latest_inv, astep, astep_thread; simpl. intros H.
  destruct t.
  - destruct ppt; simpl.
    + destruct ptd as [| [v | |] ptd]; tr_norm; done.
    + destruct sl; tr_norm; done.
    + destruct sl; tr_norm; intros w [= <-]; by rewrite last_snoc.
    + destruct sl; tr_norm; done.
    + destruct sl; tr_norm; done.
    + tr_norm. done.
  - destruct cpt; simpl.
    + destruct ctd as [| [v | |] ctd]; tr_norm; done.
    + destruct sl; tr_norm; done.
    + destruct sl; tr_norm; intros w [= <-]; by rewrite last_snoc.
    + destruct sl; tr_norm; done.
    + destruct sl; tr_norm; done.
    + tr_norm. done.
Qed.

Lemma stuck_step t a : stuck_inv a -> stuck_inv (astep t a).
Proof.
  destruct a as [b sl [ptd ppt] [ctd cpt] tr].
  unfold stuck_inv, astep, astep_thread; simpl.
  intros (-> & Hpp & Hpt & -> & Hcr & Hcs & Hx & Hn). destruct t.
  - destruct ppt; try done; simpl.
    + destruct ptd as [| [v | |] ptd]; simpl in *; try done;
        tr_norm; split_and!; try done; destruct sl; by tr_norm.
    + destruct sl; tr_norm; split_and!; try done.
    + rewrite (Hx v eq_refl) in *. tr_norm. rewrite Hn. split_and!; done.
  - destruct ctd as [| [v | |] ctd]; simpl in *; try done;
      tr_norm; split_and!; try done; destruct sl; by tr_norm.
Qed.

(** X5. In synchronous mode, when no thread ever receives and only the
    producer sends, at most one send ever gets past its wait, however long
    the run, and a value pending in the slot is the value of that send. *)
Theorem sync_without_receiver_sends_once (p q : list (@op T))
    (sch : list tid) :
  no_receive p = true -> no_receive q = true -> no_send q = true ->
  exists s, run sch (init true p q) = Some s /\
    length (sends (trace s)) <= 1 /\
    (forall v, pending s = Some v -> sends (trace s) = [v]).
Proof.
  intros Hp Hqr Hqs. destruct (any_run true p q sch) as (s & E & _ & Hs).
  exists s. split; [done |].
  rewrite (sim_trace s _ Hs), (sim_pending s _ Hs).
  assert (stuck_inv (arun sch (ainit true p q)))
    as (_ & _ & _ & _ & _ & _ & _ & Hn).
  { apply (inv_run stuck_inv stuck_step). unfold stuck_inv; simpl.
    split_and!; done. }
  pose proof (inv_run latest_inv latest_step sch (ainit true p q)) as Hl.
  destruct (aslot (arun sch (ainit true p q))) as [w |] eqn:Esl.
  - split; [lia |]. intros v [= <-].
    specialize (Hl ltac:(by intros v) w Esl).
    destruct (sends (atrace (arun sch (ainit true p q)))) as [| x [| y l]];
      simpl in *; try done. by injection Hl as ->.
  - rewrite Hn. split; [simpl; lia | done].
Qed.

Lemma events_of_app t tr tr' :
  events_of t (tr ++ tr') = events_of t tr ++ events_of t tr'.
Proof. apply filter_app. Qed.

Lemma calm_snoc (l : list (@event T)) e :
  calm (l ++ [e]) = calm l && negb (hot l && is_sleep e).
Proof.
  induction l as [| x l IH]; [done |].
  destruct l as [| y l].
  - simpl. unfold hot; simpl. by rewrite andb_true_r.
  - change (calm ((x :: y :: l) ++ [e]))
      with (negb (is_present_true x && is_sleep y) && calm ((y :: l) ++ [e])).
    rewrite IH. change (calm (x :: y :: l))
      with (negb (is_present_true x && is_sleep y) && calm (y :: l)).
    unfold hot. change (last (x :: y :: l)) with (last (y :: l)).
    by rewrite andb_assoc.
Qed.

Lemma hot_snoc (l : list (@event T)) e : hot (l ++ [e]) = is_present_true e.
Proof. unfold hot. by rewrite last_snoc. Qed.

Lemma events_of_last t tr (evs : list (@event T)) :
  events_of t (tr ++ evs)
  = events_of t tr ++ filter (fun e => event_tid e = t) evs.
Proof. apply filter_app. Qed.

Ltac ev_norm :=
  simpl; rewrite events_of_last; cbn;
  repeat (rewrite decide_True by done || rewrite decide_False by done);
  rewrite ?app_nil_r.

Lemma calm_step t a : calm_inv a -> calm_inv (astep t a).
Proof.
  intros (Hi & Hcalm & Hhot). split; [by apply spsc_inv_step |].
  destruct a as [b sl [ptd ppt] [ctd cpt] tr].
  destruct Hi as (Hpp & Hpt & Hcp & Hct & Hcx).
  unfold astep, astep_thread in *; simpl in *. destruct t.
  - destruct ppt; try done.
    + destruct ptd as [| [v | |] ptd]; simpl in *; try done; ev_norm; done.
    + destruct sl; ev_norm; done.
    + destruct sl; ev_norm; (split; [done |]); intros _; by left.
  - destruct cpt; try done.
    + destruct ctd as [| [v | |] ctd]; simpl in *; try done; ev_norm.
      * done.
      * split; [done |]. intros H. destruct (Hhot H) as [? | [? ?]]; [by left | done].
      * rewrite calm_snoc, hot_snoc, Hcalm. simpl. rewrite andb_false_r.
        split; [done |]. destruct sl; [by left | done].
    + destruct sl; ev_norm.
      * split; [done |]. intros _. by left.
      * rewrite calm_snoc, hot_snoc, Hcalm. simpl. rewrite andb_true_r.
        split; [| done].
        destruct (hot (events_of Consumer tr)); [| done].
        destruct (Hhot eq_refl) as [? | [? ?]]; done.
    + destruct sl; ev_norm; (split; [done |]); intros H; eauto.
    + ev_norm. rewrite calm_snoc, hot_snoc, Hcalm. simpl. rewrite andb_false_r.
      done.
Qed.

(** X6. With one sender and one receiver, in either mode, once
    [is_object_present] has answered [true] to the receiver, the receiver does
    not sleep in its next call: among the events of the receiver no sleep
    comes right after a [true] answer. *)
Theorem present_then_receive_does_not_sleep (b : bool) (p q : list (@op T))
    (sch : list tid) :
  spsc p q ->
  exists s, run sch (init b p q) = Some s /\
    calm (events_of Consumer (trace s)) = true.
Proof.
  intros H. destruct (any_run b p q sch) as (s & E & _ & Hs).
  exists s. split; [done |]. rewrite (sim_trace s _ Hs).
  assert (calm_inv (arun sch (ainit b p q))) as (_ & Hc & _); [| done].
  apply (inv_run calm_inv calm_step). split; [by apply spsc_inv_init |].
  done.
Qed.

End more_facts.

Lemma overwrite_sender_never_sleeps_witness :
  no_receive [Send 1%Z; IsPresent; Send 2%Z] = true /\
  exists s, run [Producer; Consumer; Consumer; Producer; Producer; Consumer]
                (init false [Send 1%Z; IsPresent; Send 2%Z] [Receive])
            = Some s /\
    EvSleep Producer ∉ trace s.
Proof.
  split; [reflexivity |].
  apply (overwrite_sender_never_sleeps (T:=Z)); reflexivity.
Defined.

Lemma received_is_subsequence_of_sent_witness :
  spsc [Send 1%Z; Send 2%Z; Send 3%Z] [@Receive Z; Receive] /\
  exists s, run [Producer; Producer; Producer; Producer; Consumer; Consumer;
                 Producer; Consumer; Consumer]
                (init false [Send 1%Z; Send 2%Z; Send 3%Z] [Receive; Receive])
            = Some s /\
    sublist (recvs (trace s) ++ in_flight s) (sends (trace s)).
Proof.
  split; [split; reflexivity |].
  apply (received_is_subsequence_of_sent (T:=Z)); split; reflexivity.
Defined.

Lemma sync_without_receiver_sends_once_witness :
  no_receive [Send 1%Z; Send 2%Z] = true /\
  no_receive [@IsPresent Z] = true /\ no_send [@IsPresent Z] = true /\
  exists s, run [Producer; Producer; Producer; Producer; Consumer; Producer;
                 Producer]
                (init true [Send 1%Z; Send 2%Z] [IsPresent]) = Some s /\
    length (sends (trace s)) <= 1 /\
    (forall v, pending s = Some v -> sends (trace s) = [v]).
Proof.
  do 3 (split; [reflexivity |]).
  apply (sync_without_receiver_sends_once (T:=Z)); reflexivity.
Defined.

Lemma present_then_receive_does_not_sleep_witness :
  spsc [Send 1%Z] [@IsPresent Z; Receive] /\
  exists s, run [Producer; Producer; Consumer; Consumer; Consumer; Consumer]
                (init false [Send 1%Z] [IsPresent; Receive]) = Some s /\
    calm (events_of Consumer (trace s)) = true.
Proof.
  split; [split; reflexivity |].
  apply (present_then_receive_does_not_sleep (T:=Z)); split; reflexivity.
Defined.

End SlotMoreFacts.

(** ** Further facts about the class-name loader *)

Module NamesMoreFacts.
Import Names NamesFacts.
Local Open Scope string_scope.

Lemma names_of_content (fs : string -> option string) (filename content : string) :
  fs filename = Some content ->
  exists ls last, Forall no_newline ls /\ no_newline last /\
    content = terminated ls ++ last /\
    objects_names_from_file fs filename
    = Some ((ls ++ last_entry last)%list, loaded_message).
Proof.
  intros E. destruct (content_shape content) as (ls & last & Hls & Hl & ->).
  exists ls, last. split_and!; try done.
  unfold objects_names_from_file, open_file. rewrite E. cbn [is_open negb buf].
  rewrite (read_lines_terminated ls last _ "" [] Hls Hl); [done | lia].
Qed.

Lemma append_nil_r (a : string) : a ++ "" = a.
Proof. induction a as [| c a IH]; simpl; congruence. Qed.

Lemma terminated_app (ls ms : list string) :
  terminated (ls ++ ms)%list = terminated ls ++ terminated ms.
Proof.
  induction ls as [| l ls IH]; simpl; [done |].
  by rewrite IH, append_assoc.
Qed.

(** X7. Round trip: when the file can be opened, no entry of the vector
    contains a newline, and writing the entries back, each followed by a
    newline, gives the contents of the file, or the contents with the newline
    that was missing at its end. *)
Theorem names_round_trip (fs : string -> option string)
    (filename content : string) (lines : list string) (out : string) :
  fs filename = Some content ->
  objects_names_from_file fs filename = Some (lines, out) ->
  Forall no_newline lines /\
  (terminated lines = content \/
   terminated lines = content ++ String newline "").
Proof.
  intros E Hres.
  destruct (names_of_content fs filename content E)
    as (ls & last & Hls & Hl & -> & Hres').
  rewrite Hres' in Hres. injection Hres as <- <-.
  destruct last as [| c r]; simpl.
  - rewrite app_nil_r, append_nil_r. split; [done | by left].
  - split; [apply Forall_app; split; [done | by constructor] |].
    right. rewrite terminated_app. simpl. by rewrite append_assoc.
Qed.

(** X8. The vector is empty exactly when the file cannot be opened or is
    empty: the vector alone does not tell the two apart. *)
Theorem names_empty_iff (fs : string -> option string) (filename : string) :
  (exists out, objects_names_from_file fs filename = Some ([], out)) <->
  (fs filename = None \/ fs filename = Some "").
Proof.
  split.
  - intros [out Hres]. destruct (fs filename) as [content |] eqn:E; [| by left].
    right. destruct (names_of_content fs filename content E)
      as (ls & last & Hls & Hl & -> & Hres').
    rewrite Hres' in Hres. injection Hres as Hnil _.
    apply app_eq_nil in Hnil as [-> Hlast]. by destruct last.
  - intros [E | E].
    + exists "". unfold objects_names_from_file, open_file. by rewrite E.
    + exists loaded_message. unfold objects_names_from_file, open_file.
      by rewrite E.
Qed.

Lemma names_round_trip_witness :
  (fun _ : string => Some (terminated ["cat"] ++ "dog")) "coco.names"
    = Some (terminated ["cat"] ++ "dog") /\
  objects_names_from_file (fun _ => Some (terminated ["cat"] ++ "dog"))
                          "coco.names"
    = Some (["cat"; "dog"], loaded_message) /\
  Forall no_newline ["cat"; "dog"] /\
  (terminated ["cat"; "dog"] = terminated ["cat"] ++ "dog" \/
   terminated ["cat"; "dog"]
   = (terminated ["cat"] ++ "dog") ++ String newline "").
Proof.
  split; [reflexivity |]. split; [reflexivity |].
  exact (names_round_trip (fun _ => Some (terminated ["cat"] ++ "dog"))
           "coco.names" (terminated ["cat"] ++ "dog") ["cat"; "dog"]
           loaded_message eq_refl eq_refl).
Defined.

End NamesMoreFacts.

(** ** Further facts about the printers *)

Module ConsoleMoreFacts.
Import Console ConsoleFacts ConsoleMore.
Local Open Scope Z_scope.
Local Open Scope string_scope.

Lemma i32_small (z : Z) : - 2 ^ 31 <= z < 2 ^ 31 -> i32 z = z.
Proof. intros H. unfold i32. rewrite Z.mod_small; lia. Qed.

Lemma is_int_spec (z : Z) : is_int z = true <-> - 2 ^ 31 <= z < 2 ^ 31.
Proof. unfold is_int. rewrite andb_true_iff, Z.leb_le, Z.ltb_lt. done. Qed.

Lemma to_float_small (z : Z) : Z.abs z < 2 ^ 24 -> to_float z = z.
Proof.
  intros H. unfold to_float.
  destruct (Z.leb_spec (Z.log2 (Z.abs z) - 23) 0) as [| Hl]; [done |].
  exfalso. destruct (Z.eq_dec (Z.abs z) 0) as [E | E].
  - rewrite E in Hl. simpl in Hl. lia.
  - pose proof (Z.log2_spec (Z.abs z)) as Hs.
    assert (2 ^ 24 <= 2 ^ Z.log2 (Z.abs z)); [apply Z.pow_le_mono_r; lia | lia].
Qed.

Lemma to_float_sign (z : Z) :
  (0 <= z -> 0 <= to_float z) /\ (z <= -1 -> to_float z <= -1).
Proof.
  unfold to_float.
  destruct (Z.leb_spec (Z.log2 (Z.abs z) - 23) 0) as [| Hl]; [lia |].
  set (e := Z.log2 (Z.abs z) - 23) in *.
  assert (0 < 2 ^ e) as Hu by (apply Z.pow_pos_nonneg; lia).
  assert (0 < Z.abs z) as Ha.
  { destruct (Z.eq_dec (Z.abs z) 0) as [E | E]; [| lia].
    unfold e in Hl. rewrite E in Hl. simpl in Hl. lia. }
  assert (2 ^ e <= Z.abs z) as Hle.
  { pose proof (Z.log2_spec (Z.abs z) Ha) as [Hs _].
    etrans; [| exact Hs]. apply Z.pow_le_mono_r; lia. }
  assert (1 <= Z.abs z / 2 ^ e) as Hq.
  { apply Z.div_le_lower_bound; lia. }
  set (q := Z.abs z / 2 ^ e) in *. set (r := Z.abs z mod 2 ^ e).
  assert (1 <= (if (2 * r <? 2 ^ e)%Z then q
                else if (2 ^ e <? 2 * r)%Z then q + 1
                else if Z.even q then q else q + 1)) as Hq'.
  { repeat case_match; lia. }
  split; intros Hz.
  - assert (0 <= Z.sgn z) by lia. nia.
  - assert (Z.sgn z = -1) as -> by lia. nia.
Qed.

Lemma to_float_le (z c : Z) : z <= c -> -1 <= c < 2 ^ 24 -> to_float z <= c.
Proof.
  intros Hz Hc. destruct (Z.lt_ge_cases (Z.abs z) (2 ^ 24)) as [H | H].
  - by rewrite to_float_small.
  - assert (z <= -1) as Hn by lia. apply to_float_sign in Hn. lia.
Qed.

Section console_more_facts.
Variable F : Type.
Variable isnan : F -> bool.
Variable show_prec3 : F -> string.
Variable show_fixed2 : F -> string.
Variable obj_id_to_color : Z -> color.
Variable text_width : string -> Z -> Z -> Z.

Lemma draw_label_no_rectangle cols rows (i : bbox_t F) c name :
  filter (fun c => is_rectangle c = true)
         (draw_label F isnan show_fixed2 text_width cols rows i c name) = [].
Proof.
  unfold draw_label. rewrite filter_app.
  by destruct (String.eqb _ _).
Qed.

Lemma draw_all_outlines cols rows (result_vec : list (bbox_t F))
    (obj_names : list string) :
  exists out,
    draw_all F isnan show_fixed2 obj_id_to_color text_width
             cols rows result_vec obj_names = Some out /\
    filter (fun c => is_rectangle c = true) out
    = map (outline F obj_id_to_color) result_vec.
Proof.
  induction result_vec as [| i rest (out & E & Hf)]; simpl; [by exists [] |].
  rewrite draw_box_lookup, E. eexists. split; [done |].
  rewrite filter_app, Hf. f_equal.
  destruct (obj_names !! _); [| done].
  change (filter (fun c => is_rectangle c = true) (outline F obj_id_to_color i :: ?l))
    with (outline F obj_id_to_color i :: filter (fun c => is_rectangle c = true) l).
  by rewrite draw_label_no_rectangle.
Qed.

(** X9. [draw_boxes] draws exactly one outline rectangle per detection, in
    the order of the detections, whatever the names and the frame rates. *)
Theorem one_outline_per_detection (cols rows : Z)
    (result_vec : list (bbox_t F)) (obj_names : list string)
    (current_det_fps current_cap_fps : Z) :
  exists drawn,
    draw_boxes F isnan show_fixed2 obj_id_to_color text_width cols rows
               result_vec obj_names current_det_fps current_cap_fps
    = Some drawn /\
    filter (fun c => is_rectangle c = true) drawn
    = map (outline F obj_id_to_color) result_vec.
Proof.
  destruct (draw_all_outlines cols rows result_vec obj_names) as (out & E & Hf).
  unfold draw_boxes. rewrite E. eexists. split; [done |].
  rewrite filter_app, Hf.
  destruct (_ && _); simpl; by rewrite app_nil_r.
Qed.

(** The background of a label, as [draw_label] draws it. *)
Lemma draw_label_background cols rows (i : bbox_t F) c name :
  exists rest,
    draw_label F isnan show_fixed2 text_width cols rows i c name
    = FilledRectangle
        (Z.max (i32 (i32 (Z.of_N (x F i)) - 1)) 0)
        (Z.max (i32 (i32 (Z.of_N (y F i)) - 35)) 0)
        (Z.min (i32 (i32 (Z.of_N (x F i))
                     + label_width F isnan show_fixed2 text_width i name))
               (i32 (cols - 1)))
        (Z.min (i32 (Z.of_N (y F i))) (i32 (rows - 1))) c :: rest.
Proof. eexists. reflexivity. Qed.

(** X10. On an image of at most [2 ^ 24] columns and rows, and when the
    signed sums of the label do not overflow, the filled background of a
    label is clamped to the image: the corners are the source's
    [max((int)i.x - 1, 0)], [max((int)i.y - 35, 0)],
    [min((int)i.x + max_width, cols - 1)] and [min((int)i.y, rows - 1)], and
    the [float] coordinates [cv::Point2f] holds for them are never negative
    for the first corner and never beyond the last column or row for the
    second. *)
Theorem label_background_clamped (cols rows : Z) (i : bbox_t F) (c : color)
    (name : string) :
  0 <= cols <= 2 ^ 24 -> 0 <= rows <= 2 ^ 24 ->
  signed_sums_fit F isnan show_fixed2 text_width cols rows i name = true ->
  exists x1 y1 x2 y2 rest,
    draw_label F isnan show_fixed2 text_width cols rows i c name
    = FilledRectangle x1 y1 x2 y2 c :: rest /\
    x1 = Z.max (i32 (Z.of_N (x F i)) - 1) 0 /\
    y1 = Z.max (i32 (Z.of_N (y F i)) - 35) 0 /\
    x2 = Z.min (i32 (Z.of_N (x F i))
                + label_width F isnan show_fixed2 text_width i name)
               (cols - 1) /\
    y2 = Z.min (i32 (Z.of_N (y F i))) (rows - 1) /\
    0 <= to_float x1 /\ 0 <= to_float y1 /\
    to_float x2 <= cols - 1 /\ to_float y2 <= rows - 1.
Proof.
  intros Hc Hr Hfit. unfold signed_sums_fit in Hfit.
  rewrite !andb_true_iff, !is_int_spec in Hfit.
  destruct Hfit as [[[[[_ Hx] Hy] Hxw] Hcols] Hrows].
  destruct (draw_label_background cols rows i c name) as [rest ->].
  rewrite (i32_small (i32 (Z.of_N (x F i)) - 1)) by done.
  rewrite (i32_small (i32 (Z.of_N (y F i)) - 35)) by done.
  rewrite (i32_small (i32 (Z.of_N (x F i)) + _)) by done.
  rewrite (i32_small (cols - 1)), (i32_small (rows - 1)) by done.
  do 5 eexists. split; [reflexivity |]. split_and!; try reflexivity.
  - apply to_float_sign. lia.
  - apply to_float_sign. lia.
  - apply to_float_le; lia.
  - apply to_float_le; lia.
Qed.

(** Boxes and texts of ordinary size are far from any overflow. *)
Lemma bounded_sums_fit (cols rows : Z) (i : bbox_t F) (name : string) :
  Z.of_N (x F i) < 2 ^ 29 -> Z.of_N (y F i) < 2 ^ 29 ->
  Z.of_N (w F i) < 2 ^ 29 ->
  (forall s scale thickness, 0 <= text_width s scale thickness < 2 ^ 29) ->
  - 2 ^ 31 < cols < 2 ^ 31 -> - 2 ^ 31 < rows < 2 ^ 31 ->
  signed_sums_fit F isnan show_fixed2 text_width cols rows i name = true.
Proof.
  intros Hx Hy Hw Ht Hc Hr. unfold signed_sums_fit.
  pose proof (N2Z.is_nonneg (x F i)). pose proof (N2Z.is_nonneg (y F i)).
  pose proof (N2Z.is_nonneg (w F i)).
  assert (0 <= label_width F isnan show_fixed2 text_width i name <= 2 ^ 29 + 2)
    as Hl.
  { assert (forall a b, 0 <= a < 2 ^ 29 -> 0 <= b < 2 ^ 29 + 3 ->
              0 <= i32 (if (u32 a >? b)%Z then u32 a else b) <= 2 ^ 29 + 2) as Hi.
    { intros a b Ha Hb. unfold u32. rewrite (Z.mod_small a) by lia.
      destruct (a >? b)%Z; rewrite i32_small; lia. }
    unfold label_width.
    assert (u32 (Z.of_N (w F i) + 2) = Z.of_N (w F i) + 2) as ->.
    { unfold u32. apply Z.mod_small. lia. }
    rewrite (i32_small (Z.of_N (w F i))) by lia.
    rewrite (i32_small (Z.of_N (w F i) + 2)) by lia.
    destruct (negb (isnan (z_3d F i))).
    - match goal with
      | |- context [i32 (if (u32 (text_width ?s1 8 1) >? ?b)%Z then _ else _)] =>
          pose proof (Hi (text_width s1 8 1) b (Ht _ _ _) ltac:(lia));
          generalize dependent (i32 (if (u32 (text_width s1 8 1) >? b)%Z
                                     then u32 (text_width s1 8 1) else b))
      end.
      intros m3 Hm3.
      match goal with
      | |- context [i32 (if (u32 (text_width ?s1 12 2) >? ?b)%Z then _ else _)] =>
          pose proof (Hi (text_width s1 12 2) b (Ht _ _ _) ltac:(lia));
          generalize dependent (i32 (if (u32 (text_width s1 12 2) >? b)%Z
                                     then u32 (text_width s1 12 2) else b))
      end.
      intros m Hm. destruct (_ >? _)%Z; lia.
    - match goal with
      | |- context [i32 (if (u32 (text_width ?s1 12 2) >? ?b)%Z then _ else _)] =>
          pose proof (Hi (text_width s1 12 2) b (Ht _ _ _) ltac:(lia));
          generalize dependent (i32 (if (u32 (text_width s1 12 2) >? b)%Z
                                     then u32 (text_width s1 12 2) else b))
      end.
      intros m Hm. lia. }
  rewrite !andb_true_iff, !is_int_spec.
  rewrite !i32_small by lia. lia.
Qed.

(** X11. The text origin of a label is computed as [i.y - 16] in unsigned
    arithmetic: for a box whose [y] is below 16 it wraps to
    [y + 4294967280], far outside any image; otherwise it is [y - 16]. *)
Theorem label_origin_wraps_near_top (cols rows : Z) (i : bbox_t F) (c : color)
    (name : string) :
  Z.of_N (y F i) < 2 ^ 32 ->
  exists bg text rest,
    draw_label F isnan show_fixed2 text_width cols rows i c name
    = bg :: PutText text (Z.of_N (x F i))
                    (if (Z.of_N (y F i) <? 16)%Z
                     then Z.of_N (y F i) + 4294967280
                     else Z.of_N (y F i) - 16)
                    8 (0, 0, 0) 2 :: rest.
Proof.
  intros Hy. unfold draw_label. simpl app.
  do 3 eexists. f_equal. f_equal. f_equal. unfold u32.
  destruct (Z.ltb_spec (Z.of_N (y F i)) 16).
  - replace (Z.of_N (y F i) - 16) with (Z.of_N (y F i) + 4294967280 + (-1) * 2 ^ 32) by lia.
    rewrite Z.mod_add by lia. apply Z.mod_small. lia.
  - apply Z.mod_small. lia.
Qed.

Lemma console_lines_lookup (result_vec : list (bbox_t F))
    (obj_names obj_names' : list string) :
  Forall (fun i => obj_names' !! N.to_nat (obj_id F i)
                   = obj_names !! N.to_nat (obj_id F i)) result_vec ->
  console_lines F show_prec3 result_vec obj_names'
  = console_lines F show_prec3 result_vec obj_names.
Proof.
  induction 1 as [| i rest Hi _ IH]; simpl; [done |].
  by rewrite !console_line_lookup, Hi, IH.
Qed.

Lemma draw_all_lookup cols rows (result_vec : list (bbox_t F))
    (obj_names obj_names' : list string) :
  Forall (fun i => obj_names' !! N.to_nat (obj_id F i)
                   = obj_names !! N.to_nat (obj_id F i)) result_vec ->
  draw_all F isnan show_fixed2 obj_id_to_color text_width
           cols rows result_vec obj_names'
  = draw_all F isnan show_fixed2 obj_id_to_color text_width
             cols rows result_vec obj_names.
Proof.
  induction 1 as [| i rest Hi _ IH]; simpl; [done |].
  by rewrite !draw_box_lookup, Hi, IH.
Qed.

(** X12. When every detection has a name, names added at the end of the
    list change neither the text printed nor what is drawn. *)
Theorem more_names_change_nothing (cols rows : Z)
    (result_vec : list (bbox_t F)) (obj_names more : list string)
    (frame_id current_det_fps current_cap_fps : Z) :
  Forall (fun i => (N.to_nat (obj_id F i) < length obj_names)%nat) result_vec ->
  show_console_result F show_prec3 result_vec (obj_names ++ more)%list frame_id
  = show_console_result F show_prec3 result_vec obj_names frame_id /\
  draw_boxes F isnan show_fixed2 obj_id_to_color text_width cols rows
             result_vec (obj_names ++ more)%list current_det_fps current_cap_fps
  = draw_boxes F isnan show_fixed2 obj_id_to_color text_width cols rows
               result_vec obj_names current_det_fps current_cap_fps.
Proof.
  intros H.
  assert (Forall (fun i => (obj_names ++ more)%list !! N.to_nat (obj_id F i)
                           = obj_names !! N.to_nat (obj_id F i)) result_vec) as H'.
  { eapply Forall_impl; [exact H |]. intros i Hi. by apply lookup_app_l. }
  unfold show_console_result, draw_boxes.
  by rewrite (console_lines_lookup _ _ _ H'), (draw_all_lookup _ _ _ _ _ H').
Qed.

(** With no names at all every detection is shown bare. *)
Lemma console_lines_no_names (result_vec : list (bbox_t F)) :
  console_lines F show_prec3 result_vec []
  = Some (all_details F show_prec3 result_vec).
Proof.
  induction result_vec as [| i rest IH]; simpl; [done |].
  by rewrite console_line_lookup, IH.
Qed.

Lemma draw_all_no_names cols rows (result_vec : list (bbox_t F)) :
  draw_all F isnan show_fixed2 obj_id_to_color text_width cols rows result_vec []
  = Some (map (outline F obj_id_to_color) result_vec).
Proof.
  induction result_vec as [| i rest IH]; simpl; [done |].
  by rewrite draw_box_lookup, IH.
Qed.


End console_more_facts.
Lemma label_background_clamped_witness :
  0 <= 640 <= 2 ^ 24 /\ 0 <= 480 <= 2 ^ 24 /\
  signed_sums_fit nat (fun _ => true) (fun _ => "1.00") (fun _ _ _ => 1000)
                  640 480 sample_box "cat" = true /\
  exists x1 y1 x2 y2 rest,
    draw_label nat (fun _ => true) (fun _ => "1.00") (fun _ _ _ => 1000)
               640 480 sample_box (0, 0, 0) "cat"
    = FilledRectangle x1 y1 x2 y2 (0, 0, 0) :: rest /\
    x1 = Z.max (i32 (Z.of_N (x nat sample_box)) - 1) 0 /\
    y1 = Z.max (i32 (Z.of_N (y nat sample_box)) - 35) 0 /\
    x2 = Z.min (i32 (Z.of_N (x nat sample_box))
                + label_width nat (fun _ => true) (fun _ => "1.00")
                              (fun _ _ _ => 1000) sample_box "cat")
               (640 - 1) /\
    y2 = Z.min (i32 (Z.of_N (y nat sample_box))) (480 - 1) /\
    0 <= to_float x1 /\ 0 <= to_float y1 /\
    to_float x2 <= 640 - 1 /\ to_float y2 <= 480 - 1.
Proof.
  split; [lia |]. split; [lia |]. split; [reflexivity |].
  apply (label_background_clamped nat (fun _ => true) (fun _ => "1.00")
           (fun _ _ _ => 1000) 640 480 sample_box (0, 0, 0) "cat");
    [lia | lia | reflexivity].
Defined.

Lemma label_origin_wraps_near_top_witness :
  Z.of_N (y nat sample_box) < 2 ^ 32 /\
  exists bg text rest,
    draw_label nat (fun _ => true) (fun _ => "1.00") (fun _ _ _ => 10)
               640 480 sample_box (0, 0, 0) "cat"
    = bg :: PutText text (Z.of_N (x nat sample_box))
                    (if (Z.of_N (y nat sample_box) <? 16)%Z
                     then Z.of_N (y nat sample_box) + 4294967280
                     else Z.of_N (y nat sample_box) - 16)
                    8 (0, 0, 0) 2 :: rest.
Proof.
  split; [vm_compute; reflexivity |].
  apply (label_origin_wraps_near_top nat (fun _ => true) (fun _ => "1.00")
           (fun _ _ _ => 10) 640 480 sample_box (0, 0, 0) "cat").
  vm_compute; reflexivity.
Defined.

Lemma more_names_change_nothing_witness :
  Forall (fun i => (N.to_nat (obj_id nat i) < length ["cat"; "dog"])%nat)
         [named_box] /\
  show_console_result nat (fun _ => "0.9") [named_box]
                      (["cat"; "dog"] ++ ["bird"])%list (-1)
  = show_console_result nat (fun _ => "0.9") [named_box] ["cat"; "dog"] (-1) /\
  draw_boxes nat (fun _ => true) (fun _ => "1.00") (fun _ => (0, 0, 0))
             (fun _ _ _ => 10) 640 480 [named_box]
             (["cat"; "dog"] ++ ["bird"])%list (-1) (-1)
  = draw_boxes nat (fun _ => true) (fun _ => "1.00") (fun _ => (0, 0, 0))
               (fun _ _ _ => 10) 640 480 [named_box] ["cat"; "dog"] (-1) (-1).
Proof.
  assert (Forall (fun i => (N.to_nat (obj_id nat i) < length ["cat"; "dog"])%nat)
                 [named_box]) as H.
  { constructor; [vm_compute; lia | constructor]. }
  split; [exact H |].
  exact (more_names_change_nothing nat (fun _ => true) (fun _ => "0.9")
           (fun _ => "1.00") (fun _ => (0, 0, 0)) (fun _ _ _ => 10) 640 480
           [named_box] ["cat"; "dog"] ["bird"] (-1) (-1) (-1) H).
Defined.

End ConsoleMoreFacts.

(** ** Facts about [main] *)

Module ToolFacts.
Import Names NamesFacts NamesMoreFacts Console ConsoleFacts ConsoleMore ConsoleMoreFacts Tool.
Local Open Scope Z_scope.
Local Open Scope string_scope.

Section tool_facts.
Variable F : Type.
Variable isnan : F -> bool.
Variable show_prec3 : F -> string.
Variable show_fixed2 : F -> string.
Variable obj_id_to_color : Z -> color.
Variable text_width : string -> Z -> Z -> Z.
Variable Mat : Type.
Variable imread : string -> Mat.
Variable cols : Mat -> Z.
Variable rows : Mat -> Z.
Variable detect : string -> string -> Mat -> list (bbox_t F).



(** X14. When [coco.names] cannot be opened [main] still runs: it prints
    every detection without a name and draws every detection as its outline
    alone. *)
Theorem main_without_names_file (fs : string -> option string)
    (prog filename : string) (args : list string) :
  fs "coco.names" = None ->
  main F isnan show_prec3 show_fixed2 obj_id_to_color text_width
       Mat imread cols rows detect fs (prog :: filename :: args)
  = Some (endl ++ all_details F show_prec3
                    (detect "yolov3-tiny.cfg" "yolov3-tiny.weights"
                            (imread filename)),
          map (outline F obj_id_to_color)
              (detect "yolov3-tiny.cfg" "yolov3-tiny.weights" (imread filename)),
          0).
Proof.
  intros E. unfold main. simpl lookup. cbv iota.
  unfold objects_names_from_file, open_file. rewrite E. cbn [is_open negb].
  unfold draw_boxes, show_console_result.
  rewrite draw_all_no_names, console_lines_no_names. simpl.
  by rewrite app_nil_r.
Qed.

End tool_facts.


Lemma main_without_names_file_witness :
  (fun _ : string => @None string) "coco.names" = None /\
  main nat (fun _ => true) (fun _ => "0.9") (fun _ => "1.00")
       (fun _ => (0, 0, 0)) (fun _ _ _ => 10)
       unit (fun _ => tt) (fun _ => 640) (fun _ => 480)
       (fun _ _ _ => [sample_box; named_box])
       (fun _ => None) ("DarkHelp" :: "dog.jpg" :: [])
  = Some (endl ++ all_details nat (fun _ => "0.9") [sample_box; named_box],
          map (outline nat (fun _ => (0, 0, 0))) [sample_box; named_box],
          0).
Proof.
  split; [reflexivity |].
  exact (main_without_names_file nat (fun _ => true) (fun _ => "0.9")
           (fun _ => "1.00") (fun _ => (0, 0, 0)) (fun _ _ _ => 10)
           unit (fun _ => tt) (fun _ => 640) (fun _ => 480)
           (fun _ _ _ => [sample_box; named_box])
           (fun _ => None) "DarkHelp" "dog.jpg" [] eq_refl).
Defined.

End ToolFacts.
